(** * Monthly Review plugin (src/main.ts): the note resolver and the
      section append, embedded in Rocq.

    The plugin is TypeScript.  Its testable core is
    - [getOrCreateMonthlyNote] (main.ts 20-43): find this month's note in
      the collection of monthly notes, or create it;
    - the callback of [addLinkInMonthlyNote] (main.ts 142-157): compute the
      new text of the monthly note from its current text, the section
      heading, the line prefix and the link text, and write it back.

    JavaScript strings are sequences of UTF-16 code units; the three string
    operations the plugin uses ([+], [includes], [replace] with a string
    pattern) work code unit by code unit, so a string is a list of code
    units here.  The built-in operations are written out after ECMA-262. *)

From stdpp Require Import base option list gmap.
From Stdlib Require Import Ascii NArith Lia.
From Stdlib Require String.
Import String.StringSyntax.

Set Default Proof Using "Type".

(** ** JavaScript strings *)

Module JS.

(** A UTF-16 code unit.  Nothing below depends on the bound 65535. *)
Definition code_unit := N.
Definition jsstring := list code_unit.

(** An ASCII literal as a JavaScript string. *)
Definition js (s : String.string) : jsstring :=
  map N_of_ascii (String.list_ascii_of_string s).
Arguments js s%_string_scope.

(** The characters the code and [GetSubstitution] name. *)
Definition nl : jsstring := [10%N].            (* line feed, \n *)
Definition dquote : jsstring := [34%N].        (* double quote *)
Definition dollar : code_unit := 36%N.         (* $ *)
Definition ampersand : code_unit := 38%N.      (* & *)
Definition apostrophe : code_unit := 39%N.     (* apostrophe *)
Definition less_than : code_unit := 60%N.      (* < *)
Definition backtick : code_unit := 96%N.       (* backtick *)

Definition is_digit (c : code_unit) : bool :=
  ((48 <=? c) && (c <=? 57))%N.

(** [p] is a prefix of [s], code unit by code unit. *)
Fixpoint is_prefix (p s : jsstring) : bool :=
  match p, s with
  | [], _ => true
  | _ :: _, [] => false
  | a :: p', b :: s' => (a =? b)%N && is_prefix p' s'
  end.

(** StringIndexOf(string, searchValue, 0): the least index at which
    [pat] occurs in [s]; [None] stands for -1 (in ECMA-262, not-found). *)
Fixpoint indexOf (s pat : jsstring) : option nat :=
  match s with
  | [] => if is_prefix pat [] then Some 0 else None
  | _ :: s' =>
      if is_prefix pat s then Some 0 else S <$> indexOf s' pat
  end.

(** String.prototype.includes(searchString): StringIndexOf is not -1. *)
Definition includes (s pat : jsstring) : bool :=
  match indexOf s pat with Some _ => true | None => false end.

(** GetSubstitution(matched, str, position, captures, namedCaptures,
    replacementTemplate) for a string pattern: [captures] is empty and
    [namedCaptures] is undefined.  The template is read left to right:
    - [$$] gives [$];
    - [$&] gives the matched substring;
    - [$`] gives the part of [str] before the match;
    - [$'] gives the part of [str] after the match;
    - [$n], [$nn] name a capture that does not exist and [$<] needs named
      captures: each stays as written;
    - any other code unit, a lone [$] included, is copied. *)
Fixpoint GetSubstitution (matched str : jsstring) (position : nat)
    (template : jsstring) : jsstring :=
  match template with
  | [] => []
  | c :: rest =>
      if (c =? dollar)%N then
        match rest with
        | [] => [dollar]
        | d :: rest' =>
            if (d =? dollar)%N then
              dollar :: GetSubstitution matched str position rest'
            else if (d =? ampersand)%N then
              matched ++ GetSubstitution matched str position rest'
            else if (d =? backtick)%N then
              take position str ++ GetSubstitution matched str position rest'
            else if (d =? apostrophe)%N then
              drop (Nat.min (position + length matched) (length str)) str
                ++ GetSubstitution matched str position rest'
            else if is_digit d || (d =? less_than)%N then
              dollar :: d :: GetSubstitution matched str position rest'
            else
              dollar :: GetSubstitution matched str position rest
        end
      else c :: GetSubstitution matched str position rest
  end.

(** String.prototype.replace(searchValue, replaceValue) with both
    arguments strings: only the first occurrence is replaced, and the
    replacement is the expansion of [replaceValue] by [GetSubstitution]. *)
Definition replace (s searchString replaceValue : jsstring) : jsstring :=
  match indexOf s searchString with
  | None => s
  | Some position =>
      let preceding := take position s in
      let following := drop (position + length searchString) s in
      preceding
        ++ GetSubstitution searchString s position replaceValue
        ++ following
  end.

End JS.

Import JS.

(** ** The plugin *)

Module Plugin.

(** *** Data *)

(** obsidian's [TFile], as far as the plugin reads it. *)
Record TFile := { path : jsstring; basename : jsstring }.

Global Instance TFile_eq_dec : EqDecision TFile.
Proof. solve_decision. Defined.

(** main.ts 4-8. *)
Record IReviewSettings := {
  dailyNotesFolder : jsstring;
  reviewSectionHeading : jsstring;
  linePrefix : jsstring;
}.

(** main.ts 10-14. *)
Definition DEFAULT_SETTINGS : IReviewSettings :=
  {| dailyNotesFolder := js "";
     reviewSectionHeading := js "## Links";
     linePrefix := js "- " |}.

(** [window.moment().clone().startOf('month')]: the month of the
    invocation. *)
Record Period := { year : nat; month : nat }.

Global Instance Period_eq_dec : EqDecision Period.
Proof. solve_decision. Defined.

(** A call into the host either returns or throws. *)
Inductive outcome (A : Type) : Type :=
| Returns (a : A)
| Throws.
Arguments Returns {A} a.
Arguments Throws {A}.

(** What the collaborators answer during one invocation.  They are not
    code of the plugin: obsidian, obsidian-daily-notes-interface and the
    workspace.
    - [getPlugin_periodic_notes]: [plugins.getPlugin('periodic-notes')] is
      truthy;
    - [getAllMonthlyNotes]: the record of monthly notes by period key, or
      a throw;
    - [getDateUID]: the key of a period in that record; [getMonthlyNote]
      below looks it up;
    - [createMonthlyNote]: the new file and its first content; or
      undefined ([None]), which the library resolves to when it could not
      create the file and has caught the error itself; or a throw;
    - [settings]: [this.settings];
    - [displayText]: [activeLeaf.getDisplayText()];
    - [view_file]: [activeLeaf.view.file] is there, that is, the active
      leaf shows a file;
    - [linktext]: [metadataCache.fileToLinktext] of that file, read only
      when it is there. *)
Record Host := {
  now : Period;
  getPlugin_periodic_notes : bool;
  getAllMonthlyNotes : outcome (gmap jsstring TFile);
  getDateUID : Period → jsstring;
  createMonthlyNote : Period → outcome (option (TFile * jsstring));
  settings : IReviewSettings;
  displayText : jsstring;
  view_file : bool;
  linktext : jsstring;
}.

(** [getMonthlyNote(date, allNotes)]: the note under the period's key, or
    null. *)
Definition getMonthlyNote (H : Host) (date : Period)
    (allNotes : gmap jsstring TFile) : option TFile :=
  allNotes !! getDateUID H date.

(** What [getOrCreateMonthlyNote] returns: [return;] (28), [return null]
    (38) or [note] (42), which is the note or, when creation resolved to
    undefined, undefined. *)
Inductive note_result :=
| RUndefined
| RNull
| RNote (note : TFile).

(** JavaScript's [!note]. *)
Definition falsy (r : note_result) : bool :=
  match r with RNote _ => false | _ => true end.

(** *** Effects *)

(** The calls the plugin makes on the host, in the order made. *)
Inductive event :=
| EGetAllMonthlyNotes
| EGetMonthlyNote (date : Period)
| ECreateMonthlyNote (date : Period)
| ENotice (message : jsstring)
| EVaultRead (file : TFile)
| EVaultModify (file : TFile) (data : jsstring)
| EOpenFile (file : TFile).

Global Instance event_eq_dec : EqDecision event.
Proof. solve_decision. Defined.

(** The vault: the text of each file by path. *)
Abbreviation Vault := (gmap jsstring jsstring).

(** The result of running a piece of the plugin from a vault: its value,
    the vault it leaves and the calls it made. *)
Record Run (A : Type) := MkRun {
  value : A;
  store : Vault;
  trace : list event;
}.
Arguments MkRun {A} value store trace.
Arguments value {A} r.
Arguments store {A} r.
Arguments trace {A} r.

Definition M (A : Type) : Type := Vault → Run A.

Definition ret {A} (a : A) : M A := λ v, MkRun a v [].

Definition bind {A B} (m : M A) (k : A → M B) : M B :=
  λ v,
    let r1 := m v in
    let r2 := k (value r1) (store r1) in
    MkRun (value r2) (store r2) (trace r1 ++ trace r2).

Notation "'let*' x ':=' m 'in' k" := (bind m (λ x, k))
  (at level 10, x name, m at level 100, k at level 200).
Notation "m '>>' k" := (bind m (λ _, k))
  (at level 90, right associativity).

Definition emit (e : event) : M unit := λ v, MkRun tt v [e].

(** [new Notice(message)]. *)
Definition Notice (message : jsstring) : M unit := emit (ENotice message).

(** [vault.modify(file, data)]. *)
Definition vault_modify (file : TFile) (data : jsstring) : M unit :=
  λ v, MkRun tt (<[path file := data]> v) [EVaultModify file data].

(** What a [createMonthlyNote] that returns has done to the vault: the
    new file is there with its first content. *)
Definition vault_create (file : TFile) (content : jsstring) : M unit :=
  λ v, MkRun tt (<[path file := content]> v) [].

(** [vault.read(file).then(callback)]: the callback runs on the text of
    the file; when the read is rejected it does not run. *)
Definition vault_read_then (file : TFile) (callback : jsstring → M unit)
    : M unit :=
  λ v,
    match v !! path file with
    | Some result => (emit (EVaultRead file) >> callback result) v
    | None => emit (EVaultRead file) v
    end.

(** *** main.ts 20-43 *)

Definition getOrCreateMonthlyNote (H : Host) : M note_result :=
  let startOfMonth := now H in
  emit EGetAllMonthlyNotes >>
  match getAllMonthlyNotes H with
  | Throws =>
      Notice (js "Failed to find your monthly notes folder") >>
      ret RUndefined
  | Returns allNotes =>
      emit (EGetMonthlyNote startOfMonth) >>
      match getMonthlyNote H startOfMonth allNotes with
      | Some note => ret (RNote note)
      | None =>
          (* create new note *)
          emit (ECreateMonthlyNote startOfMonth) >>
          match createMonthlyNote H startOfMonth with
          | Throws =>
              Notice (js "Failed to create monthly note in notes folder") >>
              ret RNull
          | Returns (Some (note, content)) =>
              vault_create note content >>
              ret (RNote note)
          | Returns None => ret RUndefined
          end
      end
  end.

(** *** main.ts 45-54 *)

Definition openMonthyNote (H : Host) : M unit :=
  let* note := getOrCreateMonthlyNote H in
  match note with
  | RNote file => emit (EOpenFile file)
  | _ => ret tt
  end.

(** *** main.ts 142-157: the callback of the read *)

Definition append_callback
    (reviewHeading reviewLinePrefix noteName noteLink : jsstring)
    (monthyNoteFile : TFile) (result : jsstring) : M unit :=
  let previousNoteText := result in
  let link := reviewLinePrefix ++ js "[[" ++ noteLink ++ js "]]" in
  (if includes previousNoteText reviewHeading then
     (* append link to this section *)
     if negb (includes previousNoteText link) then
       let newNoteText :=
         replace previousNoteText reviewHeading (reviewHeading ++ nl ++ link) in
       vault_modify monthyNoteFile newNoteText
     else ret tt
   else
     let newNoteText :=
       previousNoteText ++ nl ++ reviewHeading ++ nl
         ++ reviewLinePrefix ++ js "[[" ++ noteLink ++ js "]]" in
     vault_modify monthyNoteFile newNoteText) >>
  Notice (js "Add note " ++ dquote ++ noteName ++ dquote
            ++ js " for review on " ++ basename monthyNoteFile ++ js ".").

(** *** main.ts 115-159

    Line 139 reads [noteFile.path]: when the active leaf shows no file,
    [noteFile] is undefined and this throws a TypeError.  The action is
    an async function nobody awaits, so its promise is rejected and
    nothing more happens: the note is not read. *)

Definition addLinkInMonthlyNote (H : Host) : M unit :=
  if negb (getPlugin_periodic_notes H) then
    Notice (js "The Periodic Notes plugin is not available. Please make sure it is installed and enabled before trying again.")
  else
    let* monthyNoteFile := getOrCreateMonthlyNote H in
    match monthyNoteFile with
    | RNote file =>
        let reviewHeading := reviewSectionHeading (settings H) in
        let reviewLinePrefix := linePrefix (settings H) in
        let noteName := displayText H in
        if view_file H then
          let noteLink := linktext H in
          vault_read_then file
            (append_callback reviewHeading reviewLinePrefix noteName
               noteLink file)
        else ret tt
    | _ => ret tt
    end.

(** *** The text computed by main.ts 144-155

    The text the monthly note holds once the callback has run: the
    [newNoteText] it writes, or the text it read where it writes nothing
    (the link is already there). *)
Definition computeAppend
    (previousNoteText reviewHeading reviewLinePrefix noteLink : jsstring)
    : jsstring :=
  let link := reviewLinePrefix ++ js "[[" ++ noteLink ++ js "]]" in
  if includes previousNoteText reviewHeading then
    if negb (includes previousNoteText link) then
      replace previousNoteText reviewHeading (reviewHeading ++ nl ++ link)
    else previousNoteText
  else
    previousNoteText ++ nl ++ reviewHeading ++ nl
      ++ reviewLinePrefix ++ js "[[" ++ noteLink ++ js "]]".

(** The Link Line of the spec: [linePrefix + "[[" + linkText + "]]"]. *)
Definition link_line (reviewLinePrefix noteLink : jsstring) : jsstring :=
  reviewLinePrefix ++ js "[[" ++ noteLink ++ js "]]".

(** The host as the next invocation finds it.  The collection is listed
    from the notes folder each time: a note that creation returned during
    an invocation is in the folder, so it is listed from then on under the
    key of its period.  Nothing else the plugin does changes what the
    collaborators answer. *)
Definition host_after (H : Host) : Host :=
  match getPlugin_periodic_notes H, getAllMonthlyNotes H with
  | true, Returns allNotes =>
      match getMonthlyNote H (now H) allNotes, createMonthlyNote H (now H)
      with
      | None, Returns (Some (note, _)) =>
          {| now := now H;
             getPlugin_periodic_notes := getPlugin_periodic_notes H;
             getAllMonthlyNotes :=
               Returns (<[getDateUID H (now H) := note]> allNotes);
             getDateUID := getDateUID H;
             createMonthlyNote := createMonthlyNote H;
             settings := settings H;
             displayText := displayText H;
             view_file := view_file H;
             linktext := linktext H |}
      | _, _ => H
      end
  | _, _ => H
  end.

(** [n] invocations of the add-link action in a row, on the same active
    note, in the same month and with the same settings. *)
Fixpoint repeat_invocation (n : nat) (H : Host) : M unit :=
  match n with
  | 0 => ret tt
  | S n' => addLinkInMonthlyNote H >> repeat_invocation n' (host_after H)
  end.

(** *** Measures on traces and texts *)

Definition is_create (e : event) : bool :=
  match e with ECreateMonthlyNote _ => true | _ => false end.

Definition is_read_or_write (e : event) : bool :=
  match e with EVaultRead _ | EVaultModify _ _ => true | _ => false end.

Definition count_events (p : event → bool) (t : list event) : nat :=
  length (filter (λ e, p e = true) t).

(** The number of indices at which [pat] occurs in [s]. *)
Fixpoint occurrences (pat s : jsstring) : nat :=
  (if is_prefix pat s then 1 else 0)
  + match s with
    | [] => 0
    | _ :: s' => occurrences pat s'
    end.

(** The text under the heading: what follows its first occurrence. *)
Definition section_under (heading text : jsstring) : jsstring :=
  match indexOf text heading with
  | Some position => drop (position + length heading) text
  | None => []
  end.

(** A replacement template [GetSubstitution] copies as it is: no [$] is
    followed by [$], [&], a backtick or an apostrophe. *)
Definition is_special (d : code_unit) : bool :=
  (d =? dollar)%N || (d =? ampersand)%N || (d =? backtick)%N
  || (d =? apostrophe)%N.

Fixpoint subst_free (template : jsstring) : bool :=
  match template with
  | [] => true
  | c :: rest =>
      match rest with
      | d :: _ => negb ((c =? dollar)%N && is_special d)
      | [] => true
      end && subst_free rest
  end.

(** A text on one line: it holds no line feed. *)
Definition no_line_feed (s : jsstring) : bool :=
  forallb (λ c, negb (c =? 10)%N) s.

(** The first occurrence of the heading ends its line: the text under it
    is empty or starts with a line feed.  (Nothing is asked of a text
    without the heading.) *)
Definition heading_ends_line (heading text : jsstring) : bool :=
  match section_under heading text with
  | [] => true
  | c :: _ => (c =? 10)%N
  end.

(** The texts a trace writes, in order. *)
Definition writes (tr : list event) : list jsstring :=
  omap (λ e, match e with EVaultModify _ data => Some data | _ => None end)
    tr.

(** The notification that ends the callback (main.ts 156). *)
Definition added_notice (noteName : jsstring) (monthyNoteFile : TFile)
    : event :=
  ENotice (js "Add note " ++ dquote ++ noteName ++ dquote
             ++ js " for review on " ++ basename monthyNoteFile ++ js ".").

(** The text after [n] runs of the computation, each on the text the run
    before left. *)
Definition append_n (n : nat) (h p l : jsstring) (t : jsstring) : jsstring :=
  Nat.iter n (λ x, computeAppend x h p l) t.

(** The Link Line appears exactly once under the Section Heading. *)
Definition appears_once_under_heading (heading line text : jsstring) : Prop :=
  occurrences line (section_under heading text) = 1.

(** The invariant of the spec at a host, a monthly note, a number of
    invocations and a vault: after the invocations the note's text holds
    the Link Line exactly once under the Section Heading. *)
Definition link_once_after (H : Host) (f : TFile) (n : nat) (v : Vault)
    : Prop :=
  ∃ text,
    store (repeat_invocation n H v) !! path f = Some text
    ∧ appears_once_under_heading (reviewSectionHeading (settings H))
        (link_line (linePrefix (settings H)) (linktext H)) text.

End Plugin.

Import Plugin.

(** ** Concrete hosts, for examples *)

Module Scenario.

Definition march : Period := {| year := 2024; month := 3 |}.

Definition monthly : TFile :=
  {| path := js "2024-03.md"; basename := js "2024-03" |}.

(** A key per period: year, a dash, month. *)
Definition uid (d : Period) : jsstring :=
  [N.of_nat (year d); 45%N; N.of_nat (month d)].

(** A host with the default settings, whose active note is called
    [name]. *)
Definition host (notes : outcome (gmap jsstring TFile))
    (create : outcome (option (TFile * jsstring))) (name : jsstring)
    : Host :=
  {| now := march;
     getPlugin_periodic_notes := true;
     getAllMonthlyNotes := notes;
     getDateUID := uid;
     createMonthlyNote := λ _, create;
     settings := DEFAULT_SETTINGS;
     displayText := name;
     view_file := true;
     linktext := name |}.

(** The collection holds this month's note. *)
Definition with_note (name : jsstring) : Host :=
  host (Returns {[ uid march := monthly ]}) Throws name.

(** The collection is empty and creation works. *)
Definition without_note (name : jsstring) : Host :=
  host (Returns ∅) (Returns (Some (monthly, js ""))) name.

(** The collection cannot be listed. *)
Definition no_folder (name : jsstring) : Host :=
  host Throws (Returns (Some (monthly, js ""))) name.

(** The collection is empty and creation fails. *)
Definition create_fails (name : jsstring) : Host :=
  host (Returns ∅) Throws name.

(** A vault holding the monthly note with the given text. *)
Definition vault_with (text : jsstring) : Vault :=
  {[ path monthly := text ]}.

End Scenario.

(** ** The command slots, the plugin's settings and their storage *)

Module Wiring.

(** *** main.ts 71-80 and 86-95

    The [checkCallback] of both commands: [activeLeaf] says whether
    [workspace.activeLeaf] is there; [action] is [addLinkInMonthlyNote] for
    the command add-to-monthy-note and [openMonthyNote] for
    open-monthly-note. *)
Definition checkCallback (action : M unit) (activeLeaf checking : bool)
    : M bool :=
  if activeLeaf then
    (if negb checking then action else ret tt) >>
    ret true
  else ret false.

Definition add_to_monthy_note (H : Host) : bool → bool → M bool :=
  checkCallback (addLinkInMonthlyNote H).

Definition open_monthly_note (H : Host) : bool → bool → M bool :=
  checkCallback (openMonthyNote H).

(** *** main.ts 102-109 *)
Definition onLayoutReady (H : Host) : M unit :=
  if negb (getPlugin_periodic_notes H) then
    Notice (js "The Periodic Notes plugin was not found. The Review plugin requires the Natural Language Dates plugin. Please install it first and make sure it is enabled before using Review.")
  else ret tt.

(** *** Kinds of calls *)

Definition is_vault_read (e : event) : bool :=
  match e with EVaultRead _ => true | _ => false end.

Definition is_vault_modify (e : event) : bool :=
  match e with EVaultModify _ _ => true | _ => false end.

Definition is_notice (e : event) : bool :=
  match e with ENotice _ => true | _ => false end.

Definition is_open (e : event) : bool :=
  match e with EOpenFile _ => true | _ => false end.

(** *** What can go wrong in the resolver *)

(** The listing throws, or it returns, the month's note is not listed
    and creation throws. *)
Definition resolver_call_throws (H : Host) : bool :=
  match getAllMonthlyNotes H with
  | Throws => true
  | Returns allNotes =>
      match getMonthlyNote H (now H) allNotes, createMonthlyNote H (now H)
      with
      | None, Throws => true
      | _, _ => false
      end
  end.

(** The month's note is not listed and creation resolves to
    undefined. *)
Definition creation_resolves_undefined (H : Host) : bool :=
  match getAllMonthlyNotes H with
  | Throws => false
  | Returns allNotes =>
      match getMonthlyNote H (now H) allNotes, createMonthlyNote H (now H)
      with
      | None, Returns None => true
      | _, _ => false
      end
  end.

(** *** Settings and their storage

    What [loadData()] returns: null ([None]) before anything was saved,
    else the stored object, in which each of the three keys is there or
    not. *)
Record StoredData := {
  stored_dailyNotesFolder : option jsstring;
  stored_reviewSectionHeading : option jsstring;
  stored_linePrefix : option jsstring;
}.

(** [Object.assign({}, DEFAULT_SETTINGS, data)] (main.ts 59): a key of
    [data] overrides the default, a key that is not there leaves it; a
    null [data] is skipped. *)
Definition Object_assign (defaults : IReviewSettings)
    (data : option StoredData) : IReviewSettings :=
  match data with
  | None => defaults
  | Some d =>
      {| dailyNotesFolder :=
           default (dailyNotesFolder defaults) (stored_dailyNotesFolder d);
         reviewSectionHeading :=
           default (reviewSectionHeading defaults)
             (stored_reviewSectionHeading d);
         linePrefix := default (linePrefix defaults) (stored_linePrefix d) |}
  end.

(** The settings [onload] installs, from what [loadData()] returned. *)
Definition onload_settings (data : option StoredData) : IReviewSettings :=
  Object_assign DEFAULT_SETTINGS data.

(** What [saveData(plugin.settings)] stores: the settings object, with
    its three keys. *)
Definition saveData (s : IReviewSettings) : StoredData :=
  {| stored_dailyNotesFolder := Some (dailyNotesFolder s);
     stored_reviewSectionHeading := Some (reviewSectionHeading s);
     stored_linePrefix := Some (linePrefix s) |}.

(** The plugin's settings in memory and the data stored for it. *)
Record PluginState := {
  plugin_settings : IReviewSettings;
  data_json : option StoredData;
}.

(** main.ts 179-186: the [onChange] of the heading field. *)
Definition onChange_reviewSectionHeading (value : jsstring)
    (st : PluginState) : PluginState :=
  let s := plugin_settings st in
  let s' :=
    if decide (value = js "") then
      {| dailyNotesFolder := dailyNotesFolder s;
         reviewSectionHeading := js "## Review";
         linePrefix := linePrefix s |}
    else
      {| dailyNotesFolder := dailyNotesFolder s;
         reviewSectionHeading := value;
         linePrefix := linePrefix s |} in
  {| plugin_settings := s'; data_json := Some (saveData s') |}.

(** main.ts 195-198: the [onChange] of the prefix field. *)
Definition onChange_linePrefix (value : jsstring) (st : PluginState)
    : PluginState :=
  let s := plugin_settings st in
  let s' :=
    {| dailyNotesFolder := dailyNotesFolder s;
       reviewSectionHeading := reviewSectionHeading s;
       linePrefix := value |} in
  {| plugin_settings := s'; data_json := Some (saveData s') |}.

(** What the user does in the settings tab. *)
Inductive edit :=
| EditHeading (value : jsstring)
| EditPrefix (value : jsstring).

Definition apply_edit (st : PluginState) (e : edit) : PluginState :=
  match e with
  | EditHeading value => onChange_reviewSectionHeading value st
  | EditPrefix value => onChange_linePrefix value st
  end.

Definition apply_edits (es : list edit) (st : PluginState) : PluginState :=
  foldl apply_edit st es.

(** The plugin restarted: [onload] reads the stored data again. *)
Definition reload (st : PluginState) : PluginState :=
  {| plugin_settings := onload_settings (data_json st);
     data_json := data_json st |}.

End Wiring.

Import Wiring.

(** ** More concrete hosts and vaults *)

Module Cases.

Import Scenario.

(** The Periodic Notes plugin is not there. *)
Definition no_plugin (name : jsstring) : Host :=
  {| now := march;
     getPlugin_periodic_notes := false;
     getAllMonthlyNotes := Returns {[ uid march := monthly ]};
     getDateUID := uid;
     createMonthlyNote := λ _, Throws;
     settings := DEFAULT_SETTINGS;
     displayText := name;
     view_file := true;
     linktext := name |}.

(** The collection is empty and creation resolves to undefined. *)
Definition create_undefined (name : jsstring) : Host :=
  host (Returns ∅) (Returns None) name.

(** The collection is empty, creation works, and the active leaf shows
    no file (a graph view, say, titled [name]). *)
Definition without_note_no_file (name : jsstring) : Host :=
  {| now := march;
     getPlugin_periodic_notes := true;
     getAllMonthlyNotes := Returns ∅;
     getDateUID := uid;
     createMonthlyNote := λ _, Returns (Some (monthly, js ""));
     settings := DEFAULT_SETTINGS;
     displayText := name;
     view_file := false;
     linktext := js "" |}.

(** The plugin as installed: the default settings, nothing stored. *)
Definition fresh_install : PluginState :=
  {| plugin_settings := onload_settings None; data_json := None |}.

(** Another note of the vault. *)
Definition other : TFile :=
  {| path := js "Ideas.md"; basename := js "Ideas" |}.

(** A vault holding the monthly note and the other note. *)
Definition vault_two (text text' : jsstring) : Vault :=
  <[ path other := text' ]> (vault_with text).

End Cases.

Import Cases.

(** ** Examples *)

Example indexOf_ex : indexOf (js "a## b##") (js "##") = Some 1.
Proof. reflexivity. Qed.

Example replace_first_only :
  replace (js "x-y-z") (js "-") (js "+") = js "x+y-z".
Proof. reflexivity. Qed.

Example replace_dollar_patterns :
  replace (js "abc") (js "b") (js "[$$|$&|$`|$'|$1|$<|$]")
  = js "a[$|b|a|c|$1|$<|$]c".
Proof. reflexivity. Qed.

Example computeAppend_ex1 :
  computeAppend (js "## Links" ++ nl ++ js "foo") (js "## Links") (js "- ")
    (js "A")
  = js "## Links" ++ nl ++ js "- [[A]]" ++ nl ++ js "foo".
Proof. reflexivity. Qed.

Example computeAppend_ex2 :
  computeAppend (js "Some text") (js "## Links") (js "- ") (js "A")
  = js "Some text" ++ nl ++ js "## Links" ++ nl ++ js "- [[A]]".
Proof. reflexivity. Qed.

Example computeAppend_empty_strings :
  computeAppend [] [] [] [] = nl ++ js "[[]]".
Proof. reflexivity. Qed.

(** ** Facts about the string operations *)

Section StringFacts.

Implicit Types s p pat a b r t : jsstring.

Lemma is_prefix_app p r : is_prefix p (p ++ r) = true.
Proof.
  induction p as [|c p IH]; [done|].
  simpl. by rewrite N.eqb_refl, IH.
Qed.

Lemma is_prefix_inv p s : is_prefix p s = true → ∃ r, s = p ++ r.
Proof.
  revert s. induction p as [|c p IH]; intros s Hp.
  - by exists s.
  - destruct s as [|d s]; [done|]. simpl in Hp.
    apply andb_true_iff in Hp as [Hcd Hp].
    apply N.eqb_eq in Hcd as ->.
    destruct (IH _ Hp) as [r ->]. by exists r.
Qed.

Lemma is_prefix_spec p s : is_prefix p s = true ↔ ∃ r, s = p ++ r.
Proof.
  split; [apply is_prefix_inv|]. intros [r ->]. apply is_prefix_app.
Qed.

(** Whether [p] is a prefix of a text is decided by the first [length p]
    code units of the text. *)
Lemma is_prefix_tail_irrel p a x y :
  length p ≤ length a → is_prefix p (a ++ x) = is_prefix p (a ++ y).
Proof.
  revert a. induction p as [|c p IH]; intros a Hlen; [done|].
  destruct a as [|d a]; simpl in *; [lia|].
  f_equal. apply IH. lia.
Qed.

Lemma is_prefix_nil_r p : is_prefix p [] = true → p = [].
Proof. by destruct p. Qed.

Lemma indexOf_nil s : indexOf s [] = Some 0.
Proof. by destruct s. Qed.

Lemma indexOf_prefix s pat : is_prefix pat s = true → indexOf s pat = Some 0.
Proof. intros Hp. destruct s; simpl; by rewrite Hp. Qed.

(** [indexOf] finds an occurrence. *)
Lemma indexOf_Some s pat i :
  indexOf s pat = Some i →
  ∃ a b, s = a ++ pat ++ b ∧ length a = i.
Proof.
  revert i. induction s as [|c s IH]; intros i Hi; simpl in Hi.
  - destruct (is_prefix pat []) eqn:Hp; [|done].
    inversion Hi; subst. apply is_prefix_nil_r in Hp as ->.
    by exists [], [].
  - destruct (is_prefix pat (c :: s)) eqn:Hp.
    + inversion Hi; subst. apply is_prefix_inv in Hp as [r Hr].
      exists [], r. by rewrite Hr.
    + destruct (indexOf s pat) as [j|] eqn:Hj; [|done].
      inversion Hi; subst.
      destruct (IH j eq_refl) as (a & b & -> & Hlen).
      exists (c :: a), b. simpl. by rewrite Hlen.
Qed.

(** ... and it finds every occurrence: a text with an occurrence has an
    index. *)
Lemma indexOf_app_is_Some a pat b : is_Some (indexOf (a ++ pat ++ b) pat).
Proof.
  induction a as [|c a IH]; simpl.
  - rewrite indexOf_prefix; [by eexists|apply is_prefix_app].
  - destruct (is_prefix pat (c :: a ++ pat ++ b)); [by eexists|].
    destruct IH as [j ->]. by eexists.
Qed.

Lemma includes_true_iff s pat :
  includes s pat = true ↔ ∃ a b, s = a ++ pat ++ b.
Proof.
  unfold includes. split.
  - destruct (indexOf s pat) as [i|] eqn:Hi; [|done].
    intros _. apply indexOf_Some in Hi as (a & b & ? & _). eauto.
  - intros (a & b & ->).
    by destruct (indexOf_app_is_Some a pat b) as [j ->].
Qed.

Lemma includes_false_iff s pat :
  includes s pat = false ↔ ¬ ∃ a b, s = a ++ pat ++ b.
Proof.
  rewrite <- includes_true_iff. by destruct (includes s pat).
Qed.

Lemma includes_app3 a pat b : includes (a ++ pat ++ b) pat = true.
Proof. apply includes_true_iff. eauto. Qed.

Lemma includes_indexOf s pat :
  includes s pat = true → ∃ i, indexOf s pat = Some i.
Proof. unfold includes. destruct (indexOf s pat); [eauto|done]. Qed.

(** The index found is that of the first occurrence: nothing before it
    matches. *)
Lemma indexOf_first s pat i j :
  indexOf s pat = Some i → j < i → is_prefix pat (drop j s) = false.
Proof.
  revert i j. induction s as [|c s IH]; intros i j Hi Hj; simpl in Hi.
  - destruct (is_prefix pat []); [|done]. inversion Hi; lia.
  - destruct (is_prefix pat (c :: s)) eqn:Hp; [inversion Hi; lia|].
    destruct (indexOf s pat) as [k|] eqn:Hk; [|done].
    inversion Hi; subst. destruct j as [|j]; [done|].
    simpl. apply (IH k); [done|lia].
Qed.

(** Changing the text after the first occurrence leaves it the first. *)
Lemma indexOf_change_tail a pat x y :
  indexOf (a ++ pat ++ x) pat = Some (length a) →
  indexOf (a ++ pat ++ y) pat = Some (length a).
Proof.
  induction a as [|c a IH]; intros Hi.
  - simpl. apply indexOf_prefix, is_prefix_app.
  - simpl in *.
    destruct (is_prefix pat (c :: a ++ pat ++ x)) eqn:Hp; [done|].
    destruct (indexOf (a ++ pat ++ x) pat) as [k|] eqn:Hk; [|done].
    inversion Hi; subst.
    assert (is_prefix pat (c :: a ++ pat ++ y) = false) as ->.
    { rewrite <- Hp.
      replace (c :: a ++ pat ++ y) with ((c :: a ++ pat) ++ y)
        by (simpl; by rewrite <- (assoc_L (++))).
      replace (c :: a ++ pat ++ x) with ((c :: a ++ pat) ++ x)
        by (simpl; by rewrite <- (assoc_L (++))).
      apply is_prefix_tail_irrel. simpl. rewrite length_app. lia. }
    by rewrite IH.
Qed.

(** The occurrence [indexOf] finds, split off. *)
Lemma indexOf_split s pat i :
  indexOf s pat = Some i →
  s = take i s ++ pat ++ drop (i + length pat) s ∧ i + length pat ≤ length s.
Proof.
  intros Hi. destruct (indexOf_Some _ _ _ Hi) as (a & b & -> & <-).
  rewrite take_app_length, drop_app_add, drop_app_length.
  split; [done|]. rewrite !length_app. lia.
Qed.

End StringFacts.

(** ** Facts about the replacement and the computed text *)

Section AppendFacts.

Implicit Types t h p l line pre post template : jsstring.

(** A template without substitution patterns is inserted as written.
    Proved for a template and for the template behind one more code unit
    at once, since [GetSubstitution] reads up to two code units a step. *)
Lemma GetSubstitution_subst_free_aux matched str position template :
  (subst_free template = true →
   GetSubstitution matched str position template = template)
  ∧ (∀ c, subst_free (c :: template) = true →
     GetSubstitution matched str position (c :: template) = c :: template).
Proof.
  induction template as [|d rest' [IH1 IH2]].
  - split; [done|]. intros c _. simpl.
    destruct (c =? dollar)%N eqn:Hc; [|done].
    by apply N.eqb_eq in Hc as ->.
  - split; [apply IH2|]. intros c Hfree.
    change (subst_free (c :: d :: rest'))
      with (negb ((c =? dollar)%N && is_special d)
            && subst_free (d :: rest')) in Hfree.
    apply andb_true_iff in Hfree as [Hcd Hrest].
    assert (subst_free rest' = true) as Hrest'.
    { destruct rest'; [done|]. simpl in Hrest.
      by apply andb_true_iff in Hrest as [_ ?]. }
    change (GetSubstitution matched str position (c :: d :: rest'))
      with (if (c =? dollar)%N then
              if (d =? dollar)%N then
                dollar :: GetSubstitution matched str position rest'
              else if (d =? ampersand)%N then
                matched ++ GetSubstitution matched str position rest'
              else if (d =? backtick)%N then
                take position str
                  ++ GetSubstitution matched str position rest'
              else if (d =? apostrophe)%N then
                drop (Nat.min (position + length matched) (length str)) str
                  ++ GetSubstitution matched str position rest'
              else if is_digit d || (d =? less_than)%N then
                dollar :: d :: GetSubstitution matched str position rest'
              else
                dollar :: GetSubstitution matched str position (d :: rest')
            else c :: GetSubstitution matched str position (d :: rest')).
    destruct (c =? dollar)%N eqn:Hc.
    + apply N.eqb_eq in Hc as ->. unfold is_special in Hcd. simpl in Hcd.
      apply negb_true_iff in Hcd.
      apply orb_false_iff in Hcd as [Hcd Hap].
      apply orb_false_iff in Hcd as [Hcd Hbt].
      apply orb_false_iff in Hcd as [Hdo Ham].
      rewrite Hdo, Ham, Hbt, Hap.
      destruct (is_digit d || (d =? less_than)%N).
      * by rewrite (IH1 Hrest').
      * by rewrite (IH2 d Hrest).
    + by rewrite (IH2 d Hrest).
Qed.

Lemma GetSubstitution_subst_free matched str position template :
  subst_free template = true →
  GetSubstitution matched str position template = template.
Proof. apply GetSubstitution_subst_free_aux. Qed.

(** With such a template, [replace] puts the template in the place of the
    first occurrence. *)
Lemma replace_subst_free pre h post template :
  indexOf (pre ++ h ++ post) h = Some (length pre) →
  subst_free template = true →
  replace (pre ++ h ++ post) h template = pre ++ template ++ post.
Proof.
  intros Hi Hfree. unfold replace. rewrite Hi.
  rewrite GetSubstitution_subst_free by done.
  by rewrite take_app_length, drop_app_add, drop_app_length.
Qed.

(** The first occurrence of a pattern a text includes. *)
Lemma includes_first_occurrence t h :
  includes t h = true →
  ∃ pre post, t = pre ++ h ++ post ∧ indexOf t h = Some (length pre).
Proof.
  intros Hin. destruct (includes_indexOf _ _ Hin) as [i Hi].
  destruct (indexOf_Some _ _ _ Hi) as (pre & post & -> & <-). eauto.
Qed.

Lemma link_line_not_nil p l : link_line p l ≠ [].
Proof. unfold link_line. by destruct p. Qed.

(** The three branches of main.ts 146-155. *)
Lemma computeAppend_heading_absent t h p l :
  includes t h = false →
  computeAppend t h p l = t ++ nl ++ h ++ nl ++ link_line p l.
Proof. intros Hh. unfold computeAppend, link_line. by rewrite Hh. Qed.

Lemma computeAppend_link_present t h p l :
  includes t h = true → includes t (link_line p l) = true →
  computeAppend t h p l = t.
Proof.
  intros Hh Hl. unfold computeAppend. fold (link_line p l).
  by rewrite Hh, Hl.
Qed.

Lemma computeAppend_link_new t h p l :
  includes t h = true → includes t (link_line p l) = false →
  computeAppend t h p l = replace t h (h ++ nl ++ link_line p l).
Proof.
  intros Hh Hl. unfold computeAppend. fold (link_line p l).
  by rewrite Hh, Hl.
Qed.

(** Heading there, link not yet, and a template [replace] copies: the
    link goes right under the first occurrence of the heading. *)
Lemma computeAppend_inserts t h p l :
  includes t h = true → includes t (link_line p l) = false →
  subst_free (h ++ nl ++ link_line p l) = true →
  ∃ pre post,
    t = pre ++ h ++ post ∧ indexOf t h = Some (length pre)
    ∧ computeAppend t h p l = pre ++ h ++ nl ++ link_line p l ++ post.
Proof.
  intros Hh Hl Hfree.
  destruct (includes_first_occurrence _ _ Hh) as (pre & post & -> & Hi).
  exists pre, post. split_and!; [done..|].
  rewrite computeAppend_link_new by done.
  rewrite replace_subst_free by done.
  by rewrite <- !(assoc_L (++)).
Qed.

(** Whatever the branch, with such a template the computed text holds
    the heading and the link. *)
Lemma computeAppend_includes t h p l :
  subst_free (h ++ nl ++ link_line p l) = true →
  includes (computeAppend t h p l) h = true
  ∧ includes (computeAppend t h p l) (link_line p l) = true.
Proof.
  intros Hfree.
  destruct (includes t h) eqn:Hh.
  - destruct (includes t (link_line p l)) eqn:Hl.
    + by rewrite computeAppend_link_present.
    + destruct (computeAppend_inserts _ _ _ _ Hh Hl Hfree)
        as (pre & post & _ & _ & ->).
      split; [apply includes_app3|].
      apply includes_true_iff. exists (pre ++ h ++ nl), post.
      by rewrite <- !(assoc_L (++)).
  - rewrite computeAppend_heading_absent by done. split.
    + apply includes_true_iff. exists (t ++ nl), (nl ++ link_line p l).
      by rewrite <- !(assoc_L (++)).
    + apply includes_true_iff. exists (t ++ nl ++ h ++ nl), [].
      by rewrite <- !(assoc_L (++)), (right_id_L [] (++)).
Qed.

(** Hence a second run changes nothing. *)
Lemma computeAppend_idempotent_subst_free t h p l :
  subst_free (h ++ nl ++ link_line p l) = true →
  computeAppend (computeAppend t h p l) h p l = computeAppend t h p l.
Proof.
  intros Hfree.
  destruct (computeAppend_includes t h p l Hfree) as [Hh Hl].
  by apply computeAppend_link_present.
Qed.

End AppendFacts.

(** ** Counting occurrences *)

Section Occurrences.

Implicit Types s pat a b c : jsstring.

Lemma occurrences_app_l pat a s :
  occurrences pat s ≤ occurrences pat (a ++ s).
Proof.
  induction a as [|x a IH]; [done|].
  simpl. lia.
Qed.

Lemma occurrences_prefix pat s :
  is_prefix pat s = true → 1 ≤ occurrences pat s.
Proof. intros Hp. destruct s; simpl; rewrite Hp; lia. Qed.

Lemma occurrences_includes pat s :
  includes s pat = true → 1 ≤ occurrences pat s.
Proof.
  intros (a & b & ->)%includes_true_iff.
  etrans; [|apply occurrences_app_l].
  apply occurrences_prefix, is_prefix_app.
Qed.

(** An occurrence at the head counts once, on top of those behind it. *)
Lemma occurrences_head x pat' s :
  occurrences (x :: pat') ((x :: pat') ++ s)
  = 1 + occurrences (x :: pat') (pat' ++ s).
Proof.
  pose proof (is_prefix_app (x :: pat') s) as Hp.
  simpl in *. by rewrite Hp.
Qed.

(** Two occurrences one after the other count twice. *)
Lemma occurrences_two pat a b c :
  pat ≠ [] → 2 ≤ occurrences pat (a ++ pat ++ b ++ pat ++ c).
Proof.
  intros Hne. etrans; [|apply occurrences_app_l].
  destruct pat as [|x pat']; [done|].
  rewrite occurrences_head.
  assert (1 ≤ occurrences (x :: pat') (pat' ++ b ++ (x :: pat') ++ c)).
  { rewrite (assoc_L (++) pat' b).
    etrans; [|apply occurrences_app_l].
    apply occurrences_prefix, is_prefix_app. }
  lia.
Qed.

(** The text under the heading, given its first occurrence. *)
Lemma section_under_first pre h post :
  indexOf (pre ++ h ++ post) h = Some (length pre) →
  section_under h (pre ++ h ++ post) = post.
Proof.
  intros Hi. unfold section_under. rewrite Hi.
  by rewrite drop_app_add, drop_app_length.
Qed.

End Occurrences.

(** ** Runs of the resolver and of the append *)

Section RunFacts.

Variable H : Host.

Local Arguments js : simpl never.

Implicit Types v : Vault.

(** The five ways through [getOrCreateMonthlyNote]. *)
Lemma getOrCreateMonthlyNote_unavailable v :
  getAllMonthlyNotes H = Throws →
  getOrCreateMonthlyNote H v
  = MkRun RUndefined v
      [EGetAllMonthlyNotes;
       ENotice (js "Failed to find your monthly notes folder")].
Proof. intros E. unfold getOrCreateMonthlyNote. by rewrite E. Qed.

Lemma getOrCreateMonthlyNote_found v allNotes note :
  getAllMonthlyNotes H = Returns allNotes →
  getMonthlyNote H (now H) allNotes = Some note →
  getOrCreateMonthlyNote H v
  = MkRun (RNote note) v [EGetAllMonthlyNotes; EGetMonthlyNote (now H)].
Proof.
  intros E1 E2. unfold getOrCreateMonthlyNote. by rewrite E1, E2.
Qed.

Lemma getOrCreateMonthlyNote_created v allNotes note content :
  getAllMonthlyNotes H = Returns allNotes →
  getMonthlyNote H (now H) allNotes = None →
  createMonthlyNote H (now H) = Returns (Some (note, content)) →
  getOrCreateMonthlyNote H v
  = MkRun (RNote note) (<[path note := content]> v)
      [EGetAllMonthlyNotes; EGetMonthlyNote (now H);
       ECreateMonthlyNote (now H)].
Proof.
  intros E1 E2 E3. unfold getOrCreateMonthlyNote. by rewrite E1, E2, E3.
Qed.

Lemma getOrCreateMonthlyNote_create_undefined v allNotes :
  getAllMonthlyNotes H = Returns allNotes →
  getMonthlyNote H (now H) allNotes = None →
  createMonthlyNote H (now H) = Returns None →
  getOrCreateMonthlyNote H v
  = MkRun RUndefined v
      [EGetAllMonthlyNotes; EGetMonthlyNote (now H);
       ECreateMonthlyNote (now H)].
Proof.
  intros E1 E2 E3. unfold getOrCreateMonthlyNote. by rewrite E1, E2, E3.
Qed.

Lemma getOrCreateMonthlyNote_create_failed v allNotes :
  getAllMonthlyNotes H = Returns allNotes →
  getMonthlyNote H (now H) allNotes = None →
  createMonthlyNote H (now H) = Throws →
  getOrCreateMonthlyNote H v
  = MkRun RNull v
      [EGetAllMonthlyNotes; EGetMonthlyNote (now H);
       ECreateMonthlyNote (now H);
       ENotice (js "Failed to create monthly note in notes folder")].
Proof.
  intros E1 E2 E3. unfold getOrCreateMonthlyNote. by rewrite E1, E2, E3.
Qed.

(** When the resolver returns no note, [addLinkInMonthlyNote] and
    [openMonthyNote] stop there: the vault and the trace are the
    resolver's. *)
Lemma addLinkInMonthlyNote_no_note v r :
  getPlugin_periodic_notes H = true →
  getOrCreateMonthlyNote H v = r → falsy (value r) = true →
  addLinkInMonthlyNote H v = MkRun tt (store r) (trace r ++ []).
Proof.
  intros Hp Hr Hf. unfold addLinkInMonthlyNote, bind.
  rewrite Hp. cbn [negb]. rewrite Hr. by destruct r as [[] ? ?].
Qed.

Lemma openMonthyNote_no_note v r :
  getOrCreateMonthlyNote H v = r → falsy (value r) = true →
  openMonthyNote H v = MkRun tt (store r) (trace r ++ []).
Proof.
  intros Hr Hf. unfold openMonthyNote, bind.
  rewrite Hr. by destruct r as [[] ? ?].
Qed.

End RunFacts.

Section CallbackFacts.

Local Arguments js : simpl never.

Implicit Types (v : Vault) (t h p l name : jsstring) (f : TFile).

(** The callback writes nothing when heading and link are both there, and
    else writes the computed text once; then it notifies. *)
Lemma append_callback_run h p name l f t v :
  append_callback h p name l f t v
  = if includes t h && includes t (link_line p l) then
      MkRun tt v [added_notice name f]
    else
      MkRun tt (<[path f := computeAppend t h p l]> v)
        [EVaultModify f (computeAppend t h p l); added_notice name f].
Proof.
  unfold append_callback, computeAppend, bind, added_notice.
  fold (link_line p l).
  destruct (includes t h); [destruct (includes t (link_line p l))|]; done.
Qed.

(** Either way the note ends up holding the computed text. *)
Lemma append_callback_store h p name l f t v :
  v !! path f = Some t →
  store (append_callback h p name l f t v)
  = <[path f := computeAppend t h p l]> v.
Proof.
  intros Hv. rewrite append_callback_run.
  destruct (includes t h) eqn:Hh;
    [destruct (includes t (link_line p l)) eqn:Hl|]; simpl; try done.
  rewrite computeAppend_link_present by done. by rewrite insert_id.
Qed.

End CallbackFacts.

Section InvocationShapes.

Local Arguments js : simpl never.

Implicit Types (H : Host) (v : Vault) (f : TFile) (t : jsstring).

(** The resolver's run has one of five shapes. *)
Lemma getOrCreateMonthlyNote_cases H v :
  getOrCreateMonthlyNote H v
  = MkRun RUndefined v
      [EGetAllMonthlyNotes;
       ENotice (js "Failed to find your monthly notes folder")]
  ∨ (∃ f, getOrCreateMonthlyNote H v
          = MkRun (RNote f) v
              [EGetAllMonthlyNotes; EGetMonthlyNote (now H)])
  ∨ (∃ f content,
       getOrCreateMonthlyNote H v
       = MkRun (RNote f) (<[path f := content]> v)
           [EGetAllMonthlyNotes; EGetMonthlyNote (now H);
            ECreateMonthlyNote (now H)])
  ∨ getOrCreateMonthlyNote H v
    = MkRun RUndefined v
        [EGetAllMonthlyNotes; EGetMonthlyNote (now H);
         ECreateMonthlyNote (now H)]
  ∨ getOrCreateMonthlyNote H v
    = MkRun RNull v
        [EGetAllMonthlyNotes; EGetMonthlyNote (now H);
         ECreateMonthlyNote (now H);
         ENotice (js "Failed to create monthly note in notes folder")].
Proof.
  destruct (getAllMonthlyNotes H) as [allNotes|] eqn:E1.
  - destruct (getMonthlyNote H (now H) allNotes) as [f|] eqn:E2.
    + right; left. exists f. by eapply getOrCreateMonthlyNote_found.
    + destruct (createMonthlyNote H (now H)) as [[[f content]|]|] eqn:E3.
      * right; right; left. exists f, content.
        by eapply getOrCreateMonthlyNote_created.
      * right; right; right; left.
        by eapply getOrCreateMonthlyNote_create_undefined.
      * right; right; right; right.
        by eapply getOrCreateMonthlyNote_create_failed.
  - left. by apply getOrCreateMonthlyNote_unavailable.
Qed.

(** An invocation with the plugin there, from the resolver's run: no
    note; a note but no file in the active leaf; a note that cannot be
    read; or a note read and the callback run. *)
Lemma addLinkInMonthlyNote_run H v :
  getPlugin_periodic_notes H = true →
  addLinkInMonthlyNote H v
  = let r := getOrCreateMonthlyNote H v in
    match value r with
    | RNote f =>
        if view_file H then
          match store r !! path f with
          | Some t =>
              let cb :=
                append_callback (reviewSectionHeading (settings H))
                  (linePrefix (settings H)) (displayText H) (linktext H) f
                  t (store r) in
              MkRun tt (store cb) (trace r ++ [EVaultRead f] ++ trace cb)
          | None => MkRun tt (store r) (trace r ++ [EVaultRead f])
          end
        else MkRun tt (store r) (trace r ++ [])
    | _ => MkRun tt (store r) (trace r ++ [])
    end.
Proof.
  intros Hp. unfold addLinkInMonthlyNote, bind. rewrite Hp. cbn [negb].
  destruct (getOrCreateMonthlyNote H v) as [[| |f] v' tr]; [done..|].
  cbn [value store trace]. destruct (view_file H); [|done].
  unfold vault_read_then.
  destruct (v' !! path f) as [t|] eqn:Hv; [|done].
  unfold bind, emit. cbn [value store trace].
  by destruct (append_callback _ _ _ _ f t v') as [[] ? ?].
Qed.

Lemma addLinkInMonthlyNote_no_plugin H v :
  getPlugin_periodic_notes H = false →
  addLinkInMonthlyNote H v
  = MkRun tt v
      [ENotice (js "The Periodic Notes plugin is not available. Please make sure it is installed and enabled before trying again.")].
Proof. intros Hp. unfold addLinkInMonthlyNote. by rewrite Hp. Qed.

(** With the plugin there, a file in the active leaf and a note to read,
    the invocation leaves the note with the computed text. *)
Lemma addLinkInMonthlyNote_store H v f t :
  getPlugin_periodic_notes H = true →
  view_file H = true →
  value (getOrCreateMonthlyNote H v) = RNote f →
  store (getOrCreateMonthlyNote H v) !! path f = Some t →
  store (addLinkInMonthlyNote H v)
  = <[path f := computeAppend t (reviewSectionHeading (settings H))
                  (linePrefix (settings H)) (linktext H)]>
      (store (getOrCreateMonthlyNote H v)).
Proof.
  intros Hp Hf Hr Ht. rewrite addLinkInMonthlyNote_run by done. cbv zeta.
  rewrite Hr, Hf, Ht. cbn [store]. by apply append_callback_store.
Qed.

Lemma count_events_nil pr : count_events pr [] = 0.
Proof. done. Qed.

Lemma count_events_cons pr e tr :
  count_events pr (e :: tr)
  = (if pr e then 1 else 0) + count_events pr tr.
Proof.
  unfold count_events. rewrite filter_cons.
  destruct (pr e); by case_decide.
Qed.

Lemma count_events_app pr tr tr' :
  count_events pr (tr ++ tr') = count_events pr tr + count_events pr tr'.
Proof. unfold count_events. by rewrite filter_app, length_app. Qed.

End InvocationShapes.

Section HostAfter.

Implicit Types (H : Host) (v : Vault) (f : TFile).

(** The next invocation finds the same settings, active note and
    plugin. *)
Lemma host_after_same H :
  getPlugin_periodic_notes (host_after H) = getPlugin_periodic_notes H
  ∧ settings (host_after H) = settings H
  ∧ displayText (host_after H) = displayText H
  ∧ view_file (host_after H) = view_file H
  ∧ linktext (host_after H) = linktext H
  ∧ now (host_after H) = now H
  ∧ getDateUID (host_after H) = getDateUID H.
Proof.
  unfold host_after.
  destruct (getPlugin_periodic_notes H) eqn:Hp; [|by rewrite Hp].
  destruct (getAllMonthlyNotes H) as [allNotes|]; [|by rewrite Hp].
  destruct (getMonthlyNote H (now H) allNotes); [by rewrite Hp|].
  destruct (createMonthlyNote H (now H)) as [[[note content]|]|];
    by rewrite ?Hp.
Qed.

(** A host that lists the note stays as it is. *)
Lemma host_after_found H allNotes f :
  getAllMonthlyNotes H = Returns allNotes →
  getMonthlyNote H (now H) allNotes = Some f →
  host_after H = H.
Proof.
  intros E1 E2. unfold host_after. rewrite E1, E2.
  by destruct (getPlugin_periodic_notes H).
Qed.

(** Whatever note the resolver returned, the next invocation finds it
    listed. *)
Lemma host_after_resolved H v f :
  getPlugin_periodic_notes H = true →
  value (getOrCreateMonthlyNote H v) = RNote f →
  ∃ allNotes,
    getAllMonthlyNotes (host_after H) = Returns allNotes
    ∧ getMonthlyNote (host_after H) (now (host_after H)) allNotes = Some f.
Proof.
  intros Hp Hr. unfold host_after. rewrite Hp.
  destruct (getAllMonthlyNotes H) as [allNotes|] eqn:E1.
  2:{ by rewrite getOrCreateMonthlyNote_unavailable in Hr. }
  destruct (getMonthlyNote H (now H) allNotes) as [f'|] eqn:E2.
  { rewrite (getOrCreateMonthlyNote_found H v allNotes f') in Hr by done.
    injection Hr as ->. eauto. }
  destruct (createMonthlyNote H (now H)) as [[[note content]|]|] eqn:E3.
  - rewrite (getOrCreateMonthlyNote_created H v allNotes note content)
      in Hr by done.
    injection Hr as ->. eexists. split; [done|].
    unfold getMonthlyNote. cbn. apply lookup_insert_eq.
  - by rewrite (getOrCreateMonthlyNote_create_undefined H v allNotes)
      in Hr.
  - by rewrite (getOrCreateMonthlyNote_create_failed H v allNotes) in Hr.
Qed.

End HostAfter.

Section InvocationFacts.

Local Arguments js : simpl never.

Implicit Types (H : Host) (v : Vault) (t : jsstring) (f : TFile).

(** On a host that lists the note, [n] invocations leave the note with
    the text of [n] runs of the computation. *)
Lemma repeat_invocation_found n H v allNotes f t :
  getPlugin_periodic_notes H = true →
  view_file H = true →
  getAllMonthlyNotes H = Returns allNotes →
  getMonthlyNote H (now H) allNotes = Some f →
  v !! path f = Some t →
  store (repeat_invocation n H v)
  = <[path f := append_n n (reviewSectionHeading (settings H))
                  (linePrefix (settings H)) (linktext H) t]> v.
Proof.
  intros Hp Hf E1 E2. revert v t.
  induction n as [|n IH]; intros v t Hv.
  - simpl. by rewrite insert_id.
  - cbn [repeat_invocation]. unfold bind at 1. cbn [store].
    rewrite (host_after_found H allNotes f) by done.
    assert (getOrCreateMonthlyNote H v
            = MkRun (RNote f) v
                [EGetAllMonthlyNotes; EGetMonthlyNote (now H)]) as Hr
      by (by apply (getOrCreateMonthlyNote_found H v allNotes)).
    rewrite (addLinkInMonthlyNote_store H v f t)
      by (by rewrite ?Hr).
    rewrite Hr. cbn [store].
    rewrite (IH _ (computeAppend t (reviewSectionHeading (settings H))
                     (linePrefix (settings H)) (linktext H)))
      by apply lookup_insert_eq.
    rewrite insert_insert_eq. unfold append_n.
    by rewrite Nat.iter_succ_r.
Qed.

(** The same from any host whose resolver returns a note, found or just
    created: the first invocation reads the text the resolver left, the
    later ones find the note listed. *)
Lemma repeat_invocation_resolved n H v f t :
  getPlugin_periodic_notes H = true →
  view_file H = true →
  value (getOrCreateMonthlyNote H v) = RNote f →
  store (getOrCreateMonthlyNote H v) !! path f = Some t →
  1 ≤ n →
  store (repeat_invocation n H v)
  = <[path f := append_n n (reviewSectionHeading (settings H))
                  (linePrefix (settings H)) (linktext H) t]>
      (store (getOrCreateMonthlyNote H v)).
Proof.
  intros Hp Hf Hr Ht Hn. destruct n as [|n]; [lia|]. clear Hn.
  cbn [repeat_invocation]. unfold bind at 1. cbn [store].
  rewrite (addLinkInMonthlyNote_store H v f t) by done.
  destruct (host_after_resolved H v f Hp Hr) as (allNotes & E1 & E2).
  destruct (host_after_same H) as (Hp' & Hs & _ & Hf' & Hl & _).
  rewrite (repeat_invocation_found n (host_after H) _ allNotes f
             (computeAppend t (reviewSectionHeading (settings H))
                (linePrefix (settings H)) (linktext H)));
    [|congruence|congruence|done|done|apply lookup_insert_eq].
  rewrite Hs, Hl, insert_insert_eq. unfold append_n.
  by rewrite Nat.iter_succ_r.
Qed.

End InvocationFacts.

(** With a template [replace] copies, any number of runs, one at least,
    gives the text of the first. *)
Lemma append_n_stable n h p l t :
  subst_free (h ++ nl ++ link_line p l) = true → 1 ≤ n →
  append_n n h p l t = computeAppend t h p l.
Proof.
  intros Hfree Hn. destruct n as [|n]; [lia|]. clear Hn.
  induction n as [|n IH]; [done|].
  unfold append_n in *. rewrite Nat.iter_succ, IH.
  by apply computeAppend_idempotent_subst_free.
Qed.

(** On a text without the heading the same holds for every template:
    the new section is concatenated as written. *)
Lemma append_n_heading_absent n h p l t :
  includes t h = false → 1 ≤ n →
  append_n n h p l t = t ++ nl ++ h ++ nl ++ link_line p l.
Proof.
  intros Hh Hn. destruct n as [|n]; [lia|]. clear Hn.
  induction n as [|n IH].
  - by apply computeAppend_heading_absent.
  - unfold append_n in *. rewrite Nat.iter_succ, IH.
    apply computeAppend_link_present.
    + apply includes_true_iff. exists (t ++ nl), (nl ++ link_line p l).
      by rewrite <- !(assoc_L (++)).
    + apply includes_true_iff. exists (t ++ nl ++ h ++ nl), [].
      by rewrite <- !(assoc_L (++)), (right_id_L [] (++)).
Qed.

(** And a text that holds heading and line is left as it is. *)
Lemma append_n_link_present n h p l t :
  includes t h = true → includes t (link_line p l) = true →
  append_n n h p l t = t.
Proof.
  intros Hh Hl. induction n as [|n IH]; [done|].
  unfold append_n in *. rewrite Nat.iter_succ, IH.
  by apply computeAppend_link_present.
Qed.

(** ** The line under the heading, counted *)

Section OnceFacts.

Implicit Types s pat t h p l post r : jsstring.

Lemma is_prefix_length pat s :
  is_prefix pat s = true → length pat ≤ length s.
Proof.
  intros (r & ->)%is_prefix_inv. rewrite length_app. lia.
Qed.

(** A text shorter than the pattern holds it nowhere. *)
Lemma occurrences_short pat s :
  length s < length pat → occurrences pat s = 0.
Proof.
  induction s as [|c s IH]; intros Hlen.
  - destruct pat; [simpl in Hlen; lia|done].
  - cbn [occurrences]. rewrite IH by (simpl in Hlen; lia).
    destruct (is_prefix pat (c :: s)) eqn:Hp; [|done].
    apply is_prefix_length in Hp. lia.
Qed.

Lemma includes_cons_false c s pat :
  includes (c :: s) pat = false →
  is_prefix pat (c :: s) = false ∧ includes s pat = false.
Proof.
  unfold includes. simpl.
  destruct (is_prefix pat (c :: s)); [done|].
  by destruct (indexOf s pat).
Qed.

(** A text that does not include the pattern holds it at no index. *)
Lemma occurrences_not_included pat s :
  includes s pat = false → occurrences pat s = 0.
Proof.
  induction s as [|c s IH]; intros Hin.
  - unfold includes in Hin. simpl in *.
    by destruct (is_prefix pat []).
  - apply includes_cons_false in Hin as [Hp Hin].
    cbn [occurrences]. by rewrite Hp, IH.
Qed.

Lemma no_line_feed_cons c s :
  no_line_feed (c :: s) = true → c ≠ 10%N ∧ no_line_feed s = true.
Proof.
  unfold no_line_feed. simpl. intros [Hc Hs]%andb_true_iff.
  split; [|done]. by apply negb_true_iff, N.eqb_neq in Hc.
Qed.

(** A pattern on one line that is not a prefix of a text is not a prefix
    of the text followed by a line feed and more. *)
Lemma is_prefix_before_line_feed pat s r :
  no_line_feed pat = true → is_prefix pat s = false →
  is_prefix pat (s ++ 10%N :: r) = false.
Proof.
  revert s. induction pat as [|a pat IH]; intros s Hlf Hp; [done|].
  apply no_line_feed_cons in Hlf as [Ha Hlf].
  destruct s as [|c s]; simpl in *.
  - apply andb_false_iff. left. by apply N.eqb_neq.
  - apply andb_false_iff in Hp as [Hp|Hp]; apply andb_false_iff; auto.
Qed.

(** A text that is a prefix of itself behind one more code unit repeats
    that code unit. *)
Lemma is_prefix_shifted s x r :
  is_prefix s (x :: s ++ r) = true → ∀ c, c ∈ s → c = x.
Proof.
  revert x. induction s as [|a s IH]; intros x Hp c Hc.
  - by apply elem_of_nil in Hc.
  - simpl in Hp. apply andb_true_iff in Hp as [Hax Hp].
    apply N.eqb_eq in Hax as ->.
    apply elem_of_cons in Hc as [->|Hc]; [done|]. by apply (IH x).
Qed.

(** The line holds a bracket, so it does not start at the line feed in
    front of it. *)
Lemma link_line_not_at_line_feed p l r :
  is_prefix (link_line p l) (10%N :: link_line p l ++ r) = false.
Proof.
  destruct (is_prefix _ _) eqn:Hp; [|done].
  pose proof (is_prefix_shifted _ _ _ Hp 91%N) as Hc.
  assert (91%N ∈ link_line p l) as Hin.
  { unfold link_line. apply elem_of_app. right. by left. }
  by specialize (Hc Hin).
Qed.

(** Behind fewer code units than the line has, a text that ends there or
    goes on with a line feed, and does not include the line, holds the
    line nowhere. *)
Lemma occurrences_overhang line s post :
  no_line_feed line = true →
  length s < length line →
  includes post line = false →
  post = [] ∨ (∃ post', post = 10%N :: post') →
  occurrences line (s ++ post) = 0.
Proof.
  intros Hlf Hlen Hin Hpost. induction s as [|c s IH].
  - by apply occurrences_not_included.
  - change ((c :: s) ++ post) with (c :: (s ++ post)).
    cbn [occurrences]. rewrite IH by (simpl in Hlen; lia).
    assert (is_prefix line (c :: s) = false) as Hp.
    { destruct (is_prefix line (c :: s)) eqn:Hp; [|done].
      apply is_prefix_length in Hp. lia. }
    destruct Hpost as [->|[post' ->]].
    + by rewrite (right_id_L [] (++)), Hp.
    + change (c :: s ++ 10%N :: post') with ((c :: s) ++ 10%N :: post').
      by rewrite is_prefix_before_line_feed.
Qed.

(** The line right under the heading, then such a text: once. *)
Lemma occurrences_inserted p l post :
  no_line_feed (link_line p l) = true →
  includes post (link_line p l) = false →
  post = [] ∨ (∃ post', post = 10%N :: post') →
  occurrences (link_line p l) (nl ++ link_line p l ++ post) = 1.
Proof.
  intros Hlf Hin Hpost.
  change (nl ++ link_line p l ++ post)
    with (10%N :: link_line p l ++ post).
  cbn [occurrences]. rewrite link_line_not_at_line_feed.
  destruct (link_line p l) as [|x line'] eqn:Hline;
    [by apply link_line_not_nil in Hline|].
  rewrite occurrences_head, occurrences_overhang; try done.
  simpl. lia.
Qed.

(** The line right under the heading at the end of the text: once,
    whatever the line. *)
Lemma occurrences_appended p l :
  occurrences (link_line p l) (nl ++ link_line p l) = 1.
Proof.
  rewrite <- (right_id_L [] (++) (link_line p l)) at 2.
  change (nl ++ link_line p l ++ [])
    with (10%N :: link_line p l ++ []).
  cbn [occurrences]. rewrite link_line_not_at_line_feed.
  destruct (link_line p l) as [|x line'] eqn:Hline;
    [by apply link_line_not_nil in Hline|].
  rewrite occurrences_head, occurrences_short.
  - done.
  - rewrite (right_id_L [] (++)). simpl. lia.
Qed.

(** A heading on one line that the text does not include first occurs,
    in the text with the new section, where the new section puts it. *)
Lemma indexOf_appended_heading t h r :
  includes t h = false → no_line_feed h = true →
  indexOf (t ++ nl ++ h ++ r) h = Some (length (t ++ nl)).
Proof.
  intros Hin Hlf. induction t as [|c t IH].
  - assert (is_prefix h [] = false) as Hp.
    { unfold includes in Hin. simpl in Hin.
      by destruct (is_prefix h []). }
    pose proof (is_prefix_before_line_feed h [] (h ++ r) Hlf Hp) as Hp'.
    change ([] ++ nl ++ h ++ r) with (10%N :: (h ++ r)).
    change ([] ++ 10%N :: h ++ r) with (10%N :: (h ++ r)) in Hp'.
    cbn [indexOf]. rewrite Hp'.
    by rewrite indexOf_prefix by apply is_prefix_app.
  - apply includes_cons_false in Hin as [Hp Hin].
    change ((c :: t) ++ nl ++ h ++ r) with (c :: (t ++ nl ++ h ++ r)).
    cbn [indexOf].
    pose proof (is_prefix_before_line_feed h (c :: t) (h ++ r) Hlf Hp)
      as Hp'.
    change ((c :: t) ++ 10%N :: h ++ r) with (c :: (t ++ nl ++ h ++ r))
      in Hp'.
    rewrite Hp', IH by done. simpl. by rewrite !length_app.
Qed.

(** The first case: a new section. *)
Lemma once_heading_absent t h p l :
  includes t h = false → no_line_feed h = true →
  appears_once_under_heading h (link_line p l)
    (t ++ nl ++ h ++ nl ++ link_line p l).
Proof.
  intros Hin Hlf. unfold appears_once_under_heading.
  pose proof (indexOf_appended_heading t h (nl ++ link_line p l) Hin Hlf)
    as Hi.
  replace (t ++ nl ++ h ++ nl ++ link_line p l)
    with ((t ++ nl) ++ h ++ nl ++ link_line p l) in *
    by (by rewrite <- (assoc_L (++))).
  rewrite section_under_first by done.
  apply occurrences_appended.
Qed.

(** The second case: the line put under the heading that is there. *)
Lemma once_heading_present t h p l :
  includes t h = true → includes t (link_line p l) = false →
  heading_ends_line h t = true → no_line_feed (link_line p l) = true →
  subst_free (h ++ nl ++ link_line p l) = true →
  appears_once_under_heading h (link_line p l) (computeAppend t h p l).
Proof.
  intros Hh Hl Hend Hlf Hfree. unfold appears_once_under_heading.
  destruct (computeAppend_inserts _ _ _ _ Hh Hl Hfree)
    as (pre & post & -> & Hi & ->).
  unfold heading_ends_line in Hend.
  rewrite section_under_first in Hend by done.
  rewrite section_under_first
    by (by apply (indexOf_change_tail pre h post)).
  apply occurrences_inserted; [done| |].
  - apply includes_false_iff. intros (a & b & ->).
    apply includes_false_iff in Hl. apply Hl.
    exists (pre ++ h ++ a), b. by rewrite <- !(assoc_L (++)).
  - destruct post as [|c post']; [by left|].
    right. exists post'. by apply N.eqb_eq in Hend as ->.
Qed.

End OnceFacts.

(** ** The section append: claims C1 to C5 and C10 *)

Section AppendClaims.

Import Scenario.

Local Arguments js : simpl never.

(** C1, idempotence of the section append.  The code departs from it: the
    text under the heading is put in with [replace], which expands [$$] in
    the inserted line to [$].  With the heading there and a note called
    [Cash $$], the first run inserts [- [[Cash $]]]; the second run looks
    for [- [[Cash $$]]], does not find it and inserts again.  Two runs
    differ from one, on the text and in the vault. *)
Theorem C1_second_append_inserts_dollar_link_again :
  let t := js "## Links" in
  let h := js "## Links" in
  let p := js "- " in
  let l := js "Cash $$" in
  computeAppend t h p l = js "## Links" ++ nl ++ js "- [[Cash $]]"
  ∧ computeAppend (computeAppend t h p l) h p l
    = js "## Links" ++ nl ++ js "- [[Cash $]]" ++ nl ++ js "- [[Cash $]]"
  ∧ computeAppend (computeAppend t h p l) h p l ≠ computeAppend t h p l
  ∧ store (repeat_invocation 2 (with_note l) (vault_with t)) !! path monthly
    ≠ store (repeat_invocation 1 (with_note l) (vault_with t))
        !! path monthly.
Proof.
  vm_compute. split_and!; [reflexivity | reflexivity | discriminate
                          | discriminate].
Qed.

(** C2, the heading replaced by heading, newline and line.  The code
    departs from it: [replace] expands [$&] in the inserted line to the
    matched heading.  With the text [## Links] and a note called [P$&L]
    the heading is there and the line [- [[P$&L]]] is not, and the code
    gives [## Links], newline, [- [[P## LinksL]]]: not the text with an
    occurrence of the heading replaced by heading, newline and line. *)
Theorem C2_heading_replacement_expands_dollar_pattern :
  let t := js "## Links" in
  let h := js "## Links" in
  let p := js "- " in
  let l := js "P$&L" in
  includes t h = true
  ∧ includes t (link_line p l) = false
  ∧ computeAppend t h p l = js "## Links" ++ nl ++ js "- [[P## LinksL]]"
  ∧ ∀ pre post, t = pre ++ h ++ post →
      computeAppend t h p l ≠ pre ++ h ++ nl ++ link_line p l ++ post.
Proof.
  intros t h p l. split_and!; [by vm_compute..|].
  intros pre post Ht.
  assert (pre = [] ∧ post = []) as [-> ->].
  { apply (f_equal length) in Ht. rewrite !length_app in Ht.
    destruct pre, post; simpl in Ht; try lia. done. }
  by vm_compute.
Qed.

(** C3: when the text holds the heading and holds the line anywhere, the
    computed text is the text read, and the callback writes nothing: its
    only call is the notification and the vault is as it was. *)
Theorem C3_link_present_leaves_text_unchanged t h p l :
  includes t h = true →
  includes t (link_line p l) = true →
  computeAppend t h p l = t
  ∧ ∀ name f v,
      store (append_callback h p name l f t v) = v
      ∧ trace (append_callback h p name l f t v) = [added_notice name f]
      ∧ writes (trace (append_callback h p name l f t v)) = [].
Proof.
  intros Hh Hl. split; [by apply computeAppend_link_present|].
  intros name f v. rewrite append_callback_run, Hh, Hl. done.
Qed.

Lemma C3_witness :
  includes (js "## Links" ++ nl ++ js "- [[A]]") (js "## Links") = true
  ∧ includes (js "## Links" ++ nl ++ js "- [[A]]")
      (link_line (js "- ") (js "A")) = true
  ∧ computeAppend (js "## Links" ++ nl ++ js "- [[A]]") (js "## Links")
      (js "- ") (js "A")
    = js "## Links" ++ nl ++ js "- [[A]]".
Proof.
  split_and!; [reflexivity..|].
  apply (C3_link_present_leaves_text_unchanged
           (js "## Links" ++ nl ++ js "- [[A]]") (js "## Links") (js "- ")
           (js "A")); reflexivity.
Defined.

(** The line may sit outside the section, before the heading. *)
Example link_before_heading_suppresses_insertion :
  let t := js "- [[A]]" ++ nl ++ js "## Links" in
  computeAppend t (js "## Links") (js "- ") (js "A") = t.
Proof. reflexivity. Qed.

(** C4: when the text does not hold the heading, the computed text is the
    text, one newline, the heading, a newline and the line, whatever the
    text ends in. *)
Theorem C4_heading_absent_appends_section t h p l :
  includes t h = false →
  computeAppend t h p l = t ++ nl ++ h ++ nl ++ p ++ js "[[" ++ l ++ js "]]".
Proof. apply computeAppend_heading_absent. Qed.

Lemma C4_witness :
  includes (js "") (js "## Links") = false
  ∧ computeAppend (js "") (js "## Links") (js "- ") (js "A")
    = nl ++ js "## Links" ++ nl ++ js "- [[A]]".
Proof.
  split; [reflexivity|].
  apply (C4_heading_absent_appends_section (js "") (js "## Links") (js "- ")
           (js "A")).
  reflexivity.
Defined.

(** A text that ends in a newline gets one more all the same. *)
Example heading_absent_after_trailing_newline :
  computeAppend (js "Some text" ++ nl) (js "## Links") (js "- ") (js "A")
  = js "Some text" ++ nl ++ nl ++ js "## Links" ++ nl ++ js "- [[A]]".
Proof. reflexivity. Qed.

(** C5 as the spec has it fails where the line is already in the note
    but not under the heading: the note holds the heading, the whole-text
    check finds the line, so nothing is inserted, and after two
    invocations the line is still not under the heading. *)
Lemma C5_link_outside_section_counterexample :
  ¬ link_once_after (with_note (js "A")) monthly 2
      (vault_with (js "- [[A]]" ++ nl ++ js "## Links")).
Proof.
  intros (text & Htext & Honce).
  vm_compute in Htext. injection Htext as <-.
  vm_compute in Honce. discriminate.
Qed.

(** C5, amended.  Take invocations of the add-link action, one at least,
    with the plugin there and a file in the active leaf, on the note the
    resolver returns (found, or created by the first invocation), and let
    [t] be the text the first invocation reads.
    - If [t] does not hold the heading, and the heading is on one line,
      the line appears exactly once under the heading afterwards.
    - If [t] holds the heading and holds the line nowhere, the first
      occurrence of the heading ends its line, the line is on one line,
      and [replace] copies heading and line as they are, the line appears
      exactly once under the heading afterwards.
    - If [t] holds the heading and already holds the line somewhere, the
      invocations leave the note's text as it was: the line is under the
      heading as often as it was before, be it never or more than
      once. *)
Theorem C5_link_once_under_heading_after_invocations H f v t n :
  let h := reviewSectionHeading (settings H) in
  let line := link_line (linePrefix (settings H)) (linktext H) in
  getPlugin_periodic_notes H = true →
  view_file H = true →
  value (getOrCreateMonthlyNote H v) = RNote f →
  store (getOrCreateMonthlyNote H v) !! path f = Some t →
  1 ≤ n →
  (includes t h = false → no_line_feed h = true →
   link_once_after H f n v)
  ∧ (includes t h = true → includes t line = false →
     heading_ends_line h t = true → no_line_feed line = true →
     subst_free (h ++ nl ++ line) = true →
     link_once_after H f n v)
  ∧ (includes t h = true → includes t line = true →
     store (repeat_invocation n H v) !! path f = Some t).
Proof.
  intros h line Hp Hf Hr Ht Hn.
  pose proof (repeat_invocation_resolved n H v f t Hp Hf Hr Ht Hn) as Hs.
  fold h in Hs. unfold link_once_after. fold h line.
  rewrite Hs, lookup_insert_eq. split_and!.
  - intros Hh Hlf. eexists. split; [done|].
    rewrite append_n_heading_absent by done.
    by apply once_heading_absent.
  - intros Hh Hl Hend Hlf Hfree. eexists. split; [done|].
    rewrite append_n_stable by done.
    by apply once_heading_present.
  - intros Hh Hl. by rewrite append_n_link_present.
Qed.

Lemma C5_witness :
  link_once_after (with_note (js "A")) monthly 3
    (vault_with (js "## Links" ++ nl ++ js "foo"))
  ∧ link_once_after (without_note (js "A")) monthly 3 ∅.
Proof.
  split.
  - destruct (C5_link_once_under_heading_after_invocations
                (with_note (js "A")) monthly
                (vault_with (js "## Links" ++ nl ++ js "foo"))
                (js "## Links" ++ nl ++ js "foo") 3)
      as (_ & Hpresent & _);
      [reflexivity | reflexivity | reflexivity | reflexivity | lia |].
    apply Hpresent; reflexivity.
  - destruct (C5_link_once_under_heading_after_invocations
                (without_note (js "A")) monthly ∅ (js "") 3)
      as (Habsent & _);
      [reflexivity | reflexivity | reflexivity | reflexivity | lia |].
    apply Habsent; reflexivity.
Defined.

(** Each condition of the second case is needed.  Without the first, a
    prefix that ends a link and a heading followed on its line by the rest
    of one give the line twice under the heading; without the second, a
    prefix with a line feed does. *)
Example twice_when_heading_does_not_end_its_line :
  includes (js "## Links[[A]]") (link_line (js "]]") (js "A")) = false
  ∧ occurrences (link_line (js "]]") (js "A"))
      (section_under (js "## Links")
         (computeAppend (js "## Links[[A]]") (js "## Links") (js "]]")
            (js "A"))) = 2.
Proof. split; reflexivity. Qed.

Example twice_when_line_holds_a_line_feed :
  includes (js "## Links" ++ nl ++ js "[[A]]")
    (link_line (js "]]" ++ nl) (js "A")) = false
  ∧ occurrences (link_line (js "]]" ++ nl) (js "A"))
      (section_under (js "## Links")
         (computeAppend (js "## Links" ++ nl ++ js "[[A]]") (js "## Links")
            (js "]]" ++ nl) (js "A"))) = 2.
Proof. split; reflexivity. Qed.

(** In the first case the heading has to be on one line: a heading with a
    line feed can first occur across the end of the old text. *)
Example twice_when_heading_holds_a_line_feed :
  includes (js "]][[")
    (js "]][[" ++ nl ++ js "]]") = false
  ∧ occurrences (link_line (js "") nl)
      (section_under (js "]][[" ++ nl ++ js "]]")
         (computeAppend (js "]][[") (js "]][[" ++ nl ++ js "]]") (js "")
            nl)) = 2.
Proof. split; reflexivity. Qed.

(** C10: the whole-text check for the line is made only when the heading
    is there.  A text without the heading that already holds the line gets
    the new section with the line all the same, and then holds the line at
    two places at least, one after the other. *)
Theorem C10_heading_absent_link_present_appends_again t h p l :
  includes t h = false →
  includes t (link_line p l) = true →
  computeAppend t h p l = t ++ nl ++ h ++ nl ++ link_line p l
  ∧ 2 ≤ occurrences (link_line p l) (computeAppend t h p l)
  ∧ ∃ a b, computeAppend t h p l = a ++ link_line p l ++ b ++ link_line p l.
Proof.
  intros Hh Hl. rewrite computeAppend_heading_absent by done.
  apply includes_true_iff in Hl as (a & b & Ht).
  assert (t ++ nl ++ h ++ nl ++ link_line p l
          = a ++ link_line p l ++ (b ++ nl ++ h ++ nl) ++ link_line p l ++ [])
    as Hsplit.
  { rewrite Ht at 1.
    by rewrite <- !(assoc_L (++)), (right_id_L [] (++)). }
  split_and!; [done| |].
  - rewrite Hsplit. apply occurrences_two, link_line_not_nil.
  - exists a, (b ++ nl ++ h ++ nl). rewrite Hsplit.
    by rewrite (right_id_L [] (++)).
Qed.

Lemma C10_witness :
  includes (js "- [[A]]") (js "## Links") = false
  ∧ includes (js "- [[A]]") (link_line (js "- ") (js "A")) = true
  ∧ computeAppend (js "- [[A]]") (js "## Links") (js "- ") (js "A")
    = js "- [[A]]" ++ nl ++ js "## Links" ++ nl ++ js "- [[A]]"
  ∧ 2 ≤ occurrences (link_line (js "- ") (js "A"))
          (computeAppend (js "- [[A]]") (js "## Links") (js "- ") (js "A")).
Proof.
  destruct (C10_heading_absent_link_present_appends_again (js "- [[A]]")
              (js "## Links") (js "- ") (js "A"))
    as (Htext & Htwo & _); [reflexivity | reflexivity |].
  split_and!; [reflexivity | reflexivity | exact Htext | exact Htwo].
Defined.

(** Where the heading and the line hold no substitution pattern, the code
    does what C1 and C2 say. *)

(** X1: for a heading and a line in which no [$] is followed by [$], [&],
    a backtick or an apostrophe, running the computation on its own result
    gives that result again. *)
Theorem X1_append_idempotent_without_dollar_patterns t h p l :
  subst_free (h ++ nl ++ link_line p l) = true →
  computeAppend (computeAppend t h p l) h p l = computeAppend t h p l.
Proof. apply computeAppend_idempotent_subst_free. Qed.

Lemma X1_witness :
  subst_free (js "## Links" ++ nl ++ link_line (js "- ") (js "A")) = true
  ∧ computeAppend
      (computeAppend (js "Some text") (js "## Links") (js "- ") (js "A"))
      (js "## Links") (js "- ") (js "A")
    = computeAppend (js "Some text") (js "## Links") (js "- ") (js "A").
Proof.
  split; [reflexivity|].
  apply (X1_append_idempotent_without_dollar_patterns (js "Some text")
           (js "## Links") (js "- ") (js "A")).
  reflexivity.
Defined.

(** X2: for such a heading and line, a text that holds the heading and
    not the line comes back with the first occurrence of the heading
    replaced by heading, newline and line; what is before and after that
    occurrence, later occurrences of the heading included, is as it
    was. *)
Theorem X2_first_heading_replaced_without_dollar_patterns t h p l :
  includes t h = true →
  includes t (link_line p l) = false →
  subst_free (h ++ nl ++ link_line p l) = true →
  ∃ pre post,
    t = pre ++ h ++ post
    ∧ indexOf t h = Some (length pre)
    ∧ computeAppend t h p l = pre ++ h ++ nl ++ link_line p l ++ post.
Proof. apply computeAppend_inserts. Qed.

Lemma X2_witness :
  ∃ pre post,
    js "## Links" ++ nl ++ js "foo" ++ nl ++ js "## Links"
    = pre ++ js "## Links" ++ post
    ∧ indexOf (js "## Links" ++ nl ++ js "foo" ++ nl ++ js "## Links")
        (js "## Links") = Some (length pre)
    ∧ computeAppend (js "## Links" ++ nl ++ js "foo" ++ nl ++ js "## Links")
        (js "## Links") (js "- ") (js "A")
      = pre ++ js "## Links" ++ nl ++ link_line (js "- ") (js "A") ++ post.
Proof.
  apply (X2_first_heading_replaced_without_dollar_patterns
           (js "## Links" ++ nl ++ js "foo" ++ nl ++ js "## Links")
           (js "## Links") (js "- ") (js "A"));
    reflexivity.
Defined.

End AppendClaims.

(** ** The resolver: claims C6 to C8 *)

Section ResolverClaims.

Import Scenario.

Local Arguments js : simpl never.

(** C6: with the collection listed, if it holds a note for the period the
    resolver returns that note, never calls creation and leaves the vault
    as it was; if it holds none the resolver calls creation exactly once
    and returns the note creation produced. *)
Theorem C6_resolve_returns_existing_or_creates_once H v allNotes :
  getAllMonthlyNotes H = Returns allNotes →
  match getMonthlyNote H (now H) allNotes with
  | Some note =>
      value (getOrCreateMonthlyNote H v) = RNote note
      ∧ count_events is_create (trace (getOrCreateMonthlyNote H v)) = 0
      ∧ store (getOrCreateMonthlyNote H v) = v
  | None =>
      count_events is_create (trace (getOrCreateMonthlyNote H v)) = 1
      ∧ ∀ note content,
          createMonthlyNote H (now H) = Returns (Some (note, content)) →
          value (getOrCreateMonthlyNote H v) = RNote note
  end.
Proof.
  intros E1. destruct (getMonthlyNote H (now H) allNotes) as [note|] eqn:E2.
  - by rewrite (getOrCreateMonthlyNote_found H v allNotes note).
  - destruct (createMonthlyNote H (now H)) as [[[note content]|]|] eqn:E3.
    + rewrite (getOrCreateMonthlyNote_created H v allNotes note content)
        by done.
      split; [done|]. by intros ?? [= <- <-].
    + by rewrite (getOrCreateMonthlyNote_create_undefined H v allNotes).
    + by rewrite (getOrCreateMonthlyNote_create_failed H v allNotes).
Qed.

Lemma C6_witness :
  (value (getOrCreateMonthlyNote (with_note (js "A")) ∅) = RNote monthly
   ∧ count_events is_create
       (trace (getOrCreateMonthlyNote (with_note (js "A")) ∅)) = 0)
  ∧ (value (getOrCreateMonthlyNote (without_note (js "A")) ∅) = RNote monthly
     ∧ count_events is_create
         (trace (getOrCreateMonthlyNote (without_note (js "A")) ∅)) = 1).
Proof.
  pose proof (C6_resolve_returns_existing_or_creates_once
                (with_note (js "A")) ∅ {[ uid march := monthly ]} eq_refl)
    as (Hvalue & Hcount & _).
  pose proof (C6_resolve_returns_existing_or_creates_once
                (without_note (js "A")) ∅ ∅ eq_refl)
    as (Hcount' & Hvalue').
  split; [exact (conj Hvalue Hcount)|].
  split; [exact (Hvalue' monthly (js "") eq_refl) | exact Hcount'].
Defined.

(** C7: if the collection cannot be listed, the resolver notifies the
    user, returns no note, and makes no call but these two: creation is
    never attempted.  The actions that called it stop there: no file is
    read, written or opened and the vault is as it was. *)
Theorem C7_collection_unavailable_stops_resolution H v :
  getAllMonthlyNotes H = Throws →
  getOrCreateMonthlyNote H v
  = MkRun RUndefined v
      [EGetAllMonthlyNotes;
       ENotice (js "Failed to find your monthly notes folder")]
  ∧ count_events is_create (trace (getOrCreateMonthlyNote H v)) = 0
  ∧ store (addLinkInMonthlyNote H v) = v
  ∧ count_events is_create (trace (addLinkInMonthlyNote H v)) = 0
  ∧ count_events is_read_or_write (trace (addLinkInMonthlyNote H v)) = 0
  ∧ openMonthyNote H v
    = MkRun tt v
        [EGetAllMonthlyNotes;
         ENotice (js "Failed to find your monthly notes folder")].
Proof.
  intros E.
  pose proof (getOrCreateMonthlyNote_unavailable H v E) as Hr.
  assert (addLinkInMonthlyNote H v
          = MkRun tt v
              [EGetAllMonthlyNotes;
               ENotice (js "Failed to find your monthly notes folder")]
          ∨ ∃ message, addLinkInMonthlyNote H v = MkRun tt v [ENotice message])
    as Hadd.
  { destruct (getPlugin_periodic_notes H) eqn:Hp.
    - left. by rewrite (addLinkInMonthlyNote_no_note H v _ Hp Hr).
    - right. unfold addLinkInMonthlyNote. rewrite Hp. by eexists. }
  split_and!; [done|by rewrite Hr|..].
  - by destruct Hadd as [->|[? ->]].
  - by destruct Hadd as [->|[? ->]].
  - by destruct Hadd as [->|[? ->]].
  - by rewrite (openMonthyNote_no_note H v _ Hr).
Qed.

Lemma C7_witness :
  getAllMonthlyNotes (no_folder (js "A")) = Throws
  ∧ value (getOrCreateMonthlyNote (no_folder (js "A")) ∅) = RUndefined
  ∧ count_events is_create
      (trace (getOrCreateMonthlyNote (no_folder (js "A")) ∅)) = 0.
Proof.
  pose proof (C7_collection_unavailable_stops_resolution
                (no_folder (js "A")) ∅ eq_refl) as (Hrun & Hcount & _).
  split_and!; [reflexivity | by rewrite Hrun | exact Hcount].
Defined.

(** C8: if the collection holds no note for the period and creation
    throws, the resolver notifies the user and returns null; the action
    that called it stops there: after the failure no file is read or
    written (nor opened) and the vault is as it was. *)
Theorem C8_creation_failure_stops_the_invocation H v allNotes :
  getAllMonthlyNotes H = Returns allNotes →
  getMonthlyNote H (now H) allNotes = None →
  createMonthlyNote H (now H) = Throws →
  getOrCreateMonthlyNote H v
  = MkRun RNull v
      [EGetAllMonthlyNotes; EGetMonthlyNote (now H);
       ECreateMonthlyNote (now H);
       ENotice (js "Failed to create monthly note in notes folder")]
  ∧ store (addLinkInMonthlyNote H v) = v
  ∧ count_events is_read_or_write (trace (addLinkInMonthlyNote H v)) = 0
  ∧ openMonthyNote H v
    = MkRun tt v
        [EGetAllMonthlyNotes; EGetMonthlyNote (now H);
         ECreateMonthlyNote (now H);
         ENotice (js "Failed to create monthly note in notes folder")].
Proof.
  intros E1 E2 E3.
  pose proof (getOrCreateMonthlyNote_create_failed H v allNotes E1 E2 E3)
    as Hr.
  split_and!; [done|..].
  - destruct (getPlugin_periodic_notes H) eqn:Hp.
    + by rewrite (addLinkInMonthlyNote_no_note H v _ Hp Hr).
    + unfold addLinkInMonthlyNote. by rewrite Hp.
  - destruct (getPlugin_periodic_notes H) eqn:Hp.
    + by rewrite (addLinkInMonthlyNote_no_note H v _ Hp Hr).
    + unfold addLinkInMonthlyNote. by rewrite Hp.
  - by rewrite (openMonthyNote_no_note H v _ Hr).
Qed.

Lemma C8_witness :
  getAllMonthlyNotes (create_fails (js "A")) = Returns ∅
  ∧ value (getOrCreateMonthlyNote (create_fails (js "A"))
             (vault_with (js "kept"))) = RNull
  ∧ store (addLinkInMonthlyNote (create_fails (js "A"))
             (vault_with (js "kept"))) = vault_with (js "kept")
  ∧ count_events is_read_or_write
      (trace (addLinkInMonthlyNote (create_fails (js "A"))
                (vault_with (js "kept")))) = 0.
Proof.
  pose proof (C8_creation_failure_stops_the_invocation
                (create_fails (js "A")) (vault_with (js "kept")) ∅
                eq_refl eq_refl eq_refl) as (Hrun & Hstore & Hcount & _).
  split_and!; [reflexivity | by rewrite Hrun | exact Hstore | exact Hcount].
Defined.

End ResolverClaims.

Section InvocationProperties.

Import Scenario.

Local Arguments js : simpl never.

Local Ltac member_inv Hin :=
  repeat first
    [ apply elem_of_app in Hin as [Hin|Hin]
    | apply elem_of_cons in Hin as [Hin|Hin]
    | apply elem_of_nil in Hin; destruct Hin
    | by inversion Hin ].

Local Ltac no_member Hin := exfalso; member_inv Hin.

Local Ltac member :=
  repeat first
    [ apply list_elem_of_here
    | apply elem_of_app; right
    | apply list_elem_of_further ].

Local Ltac count :=
  cbn [trace app];
  rewrite ?count_events_app, ?count_events_cons, ?count_events_nil;
  cbn; lia.

Implicit Types (H : Host) (v : Vault) (f : TFile) (t q : jsstring).

(** X3: without the Periodic Notes plugin the add-link action only
    notifies: its whole run is the one notification, with the vault as it
    was, and so is the run of [onLayoutReady] at startup.  However often
    the action is invoked, the vault stays as it was and every call made
    is a notification, one per invocation. *)
Theorem X3_missing_plugin_only_notifies H v n :
  getPlugin_periodic_notes H = false →
  addLinkInMonthlyNote H v
  = MkRun tt v
      [ENotice (js "The Periodic Notes plugin is not available. Please make sure it is installed and enabled before trying again.")]
  ∧ onLayoutReady H v
    = MkRun tt v
        [ENotice (js "The Periodic Notes plugin was not found. The Review plugin requires the Natural Language Dates plugin. Please install it first and make sure it is enabled before using Review.")]
  ∧ store (repeat_invocation n H v) = v
  ∧ count_events is_notice (trace (repeat_invocation n H v)) = n
  ∧ length (trace (repeat_invocation n H v)) = n.
Proof.
  intros Hp. split_and!.
  - by apply addLinkInMonthlyNote_no_plugin.
  - unfold onLayoutReady. by rewrite Hp.
  - induction n as [|n IH]; [done|].
    cbn [repeat_invocation]. unfold bind at 1. cbn [store].
    rewrite addLinkInMonthlyNote_no_plugin by done. cbn [store].
    unfold host_after. by rewrite Hp.
  - induction n as [|n IH]; [done|].
    cbn [repeat_invocation]. unfold bind at 1. cbn [trace].
    rewrite addLinkInMonthlyNote_no_plugin by done. cbn [store trace].
    unfold host_after at 1. rewrite Hp.
    rewrite count_events_app, count_events_cons, count_events_nil, IH.
    cbn. lia.
  - induction n as [|n IH]; [done|].
    cbn [repeat_invocation]. unfold bind at 1. cbn [trace].
    rewrite addLinkInMonthlyNote_no_plugin by done. cbn [store trace].
    unfold host_after at 1. rewrite Hp.
    rewrite length_app, IH. cbn. lia.
Qed.

Lemma X3_witness :
  getPlugin_periodic_notes (no_plugin (js "A")) = false
  ∧ store (repeat_invocation 3 (no_plugin (js "A"))
             (vault_with (js "kept")))
    = vault_with (js "kept")
  ∧ length (trace (repeat_invocation 3 (no_plugin (js "A"))
                     (vault_with (js "kept")))) = 3.
Proof.
  destruct (X3_missing_plugin_only_notifies (no_plugin (js "A"))
              (vault_with (js "kept")) 3)
    as (_ & _ & Hstore & _ & Hlength); [reflexivity|].
  split_and!; [reflexivity | exact Hstore | exact Hlength].
Defined.

(** X4: an invocation of the add-link action leaves every file of the
    vault as it was, but the monthly note the resolver returned. *)
Theorem X4_other_files_untouched H v q :
  (∀ f, value (getOrCreateMonthlyNote H v) = RNote f → path f ≠ q) →
  store (addLinkInMonthlyNote H v) !! q = v !! q.
Proof.
  intros Hq. destruct (getPlugin_periodic_notes H) eqn:Hp;
    [|by rewrite addLinkInMonthlyNote_no_plugin].
  rewrite addLinkInMonthlyNote_run by done. cbv zeta.
  destruct (getOrCreateMonthlyNote_cases H v)
    as [Hr|[(f & Hr)|[(f & content & Hr)|[Hr|Hr]]]];
    rewrite Hr in Hq |- *; cbn [value store trace] in *; try done.
  - specialize (Hq f eq_refl). destruct (view_file H); [|done].
    destruct (v !! path f) as [t|] eqn:Hv; [|done]. cbn [store].
    rewrite append_callback_store by done. by rewrite lookup_insert_ne.
  - specialize (Hq f eq_refl).
    destruct (view_file H); cbn [store]; [|by rewrite lookup_insert_ne].
    rewrite lookup_insert_eq. cbn [store].
    rewrite append_callback_store by apply lookup_insert_eq.
    by rewrite !lookup_insert_ne.
Qed.

Lemma X4_witness :
  store (addLinkInMonthlyNote (with_note (js "A"))
           (vault_two (js "## Links") (js "my ideas"))) !! path other
  = Some (js "my ideas").
Proof.
  etrans;
    [apply (X4_other_files_untouched (with_note (js "A"))
              (vault_two (js "## Links") (js "my ideas")) (path other))|].
  - intros f [= <-]. discriminate.
  - reflexivity.
Defined.

(** X5: an invocation of the add-link action reads at most one file and
    writes at most one, and opens none.  What it writes, it writes to the
    note the resolver returned, right after reading that note and with
    nothing read or written before or after; the data is the computed
    append of the text read. *)
Theorem X5_at_most_one_read_then_one_write H v :
  count_events is_vault_read (trace (addLinkInMonthlyNote H v)) ≤ 1
  ∧ count_events is_vault_modify (trace (addLinkInMonthlyNote H v)) ≤ 1
  ∧ count_events is_open (trace (addLinkInMonthlyNote H v)) = 0
  ∧ ∀ f data,
      EVaultModify f data ∈ trace (addLinkInMonthlyNote H v) →
      value (getOrCreateMonthlyNote H v) = RNote f
      ∧ (∃ t, store (getOrCreateMonthlyNote H v) !! path f = Some t
              ∧ data = computeAppend t (reviewSectionHeading (settings H))
                         (linePrefix (settings H)) (linktext H))
      ∧ ∃ before after,
          trace (addLinkInMonthlyNote H v)
          = before ++ EVaultRead f :: EVaultModify f data :: after
          ∧ count_events is_read_or_write before = 0
          ∧ count_events is_read_or_write after = 0.
Proof.
  destruct (getPlugin_periodic_notes H) eqn:Hp.
  2:{ rewrite addLinkInMonthlyNote_no_plugin by done.
      split_and!; [count..|]. intros ?? Hin. no_member Hin. }
  rewrite addLinkInMonthlyNote_run by done. cbv zeta.
  destruct (getOrCreateMonthlyNote_cases H v)
    as [Hr|[(f & Hr)|[(f & content & Hr)|[Hr|Hr]]]];
    rewrite Hr; cbn [value store trace].
  - split_and!; [count..|]. intros ?? Hin. no_member Hin.
  - destruct (view_file H).
    2:{ split_and!; [count..|]. intros ?? Hin. no_member Hin. }
    destruct (v !! path f) as [t|] eqn:Hv; cbn [trace].
    + rewrite append_callback_run.
      destruct (includes t _ && includes t _); cbn [trace].
      * split_and!; [count..|]. intros ?? Hin. no_member Hin.
      * split_and!; [count..|]. intros f' data Hin.
        assert (f' = f ∧ data = computeAppend t
                  (reviewSectionHeading (settings H))
                  (linePrefix (settings H)) (linktext H)) as [-> ->].
        { member_inv Hin. }
        split_and!; [done|by exists t|].
        exists [EGetAllMonthlyNotes; EGetMonthlyNote (now H)],
          [added_notice (displayText H) f].
        split_and!; [done|count..].
    + split_and!; [count..|]. intros ?? Hin. no_member Hin.
  - destruct (view_file H).
    2:{ split_and!; [count..|]. intros ?? Hin. no_member Hin. }
    rewrite lookup_insert_eq. cbn [trace].
    rewrite append_callback_run.
    destruct (includes content _ && includes content _); cbn [trace].
    + split_and!; [count..|]. intros ?? Hin. no_member Hin.
    + split_and!; [count..|]. intros f' data Hin.
      assert (f' = f ∧ data = computeAppend content
                (reviewSectionHeading (settings H))
                (linePrefix (settings H)) (linktext H)) as [-> ->].
      { member_inv Hin. }
      split_and!; [done| |].
      * exists content. split; [apply lookup_insert_eq|done].
      * exists [EGetAllMonthlyNotes; EGetMonthlyNote (now H);
                ECreateMonthlyNote (now H)],
          [added_notice (displayText H) f].
        split_and!; [done|count..].
  - split_and!; [count..|]. intros ?? Hin. no_member Hin.
  - split_and!; [count..|]. intros ?? Hin. no_member Hin.
Qed.

(** X6: when the collection holds no note for the month and creation
    returns a note with its first content, creation is called once.  With
    a file in the active leaf the invocation goes on with the new note:
    it reads it once and leaves it holding the computed append of the
    first content.  With no file in the active leaf the action stops
    after the creation: the new note keeps its first content, nothing is
    read or written and no notification is shown. *)
Theorem X6_created_note_gets_the_link H v allNotes f content :
  getPlugin_periodic_notes H = true →
  getAllMonthlyNotes H = Returns allNotes →
  getMonthlyNote H (now H) allNotes = None →
  createMonthlyNote H (now H) = Returns (Some (f, content)) →
  count_events is_create (trace (addLinkInMonthlyNote H v)) = 1
  ∧ if view_file H then
      store (addLinkInMonthlyNote H v)
      = <[path f := computeAppend content
                      (reviewSectionHeading (settings H))
                      (linePrefix (settings H)) (linktext H)]> v
      ∧ count_events is_vault_read (trace (addLinkInMonthlyNote H v)) = 1
    else
      addLinkInMonthlyNote H v
      = MkRun tt (<[path f := content]> v)
          [EGetAllMonthlyNotes; EGetMonthlyNote (now H);
           ECreateMonthlyNote (now H)].
Proof.
  intros Hp E1 E2 E3. rewrite addLinkInMonthlyNote_run by done. cbv zeta.
  rewrite (getOrCreateMonthlyNote_created H v allNotes f content) by done.
  cbn [value store trace]. destruct (view_file H).
  - rewrite lookup_insert_eq. cbn [store trace].
    rewrite append_callback_store by apply lookup_insert_eq.
    rewrite insert_insert_eq. rewrite append_callback_run.
    destruct (includes content _ && includes content _);
      (split_and!; [count|done|count]).
  - split; [count|done].
Qed.

Lemma X6_witness :
  store (addLinkInMonthlyNote (without_note (js "A")) ∅)
  = vault_with (nl ++ js "## Links" ++ nl ++ js "- [[A]]")
  ∧ store (addLinkInMonthlyNote (without_note_no_file (js "Graph view")) ∅)
    = vault_with (js "").
Proof.
  destruct (X6_created_note_gets_the_link (without_note (js "A")) ∅ ∅
              monthly (js "")) as (_ & Hstore & _);
    [reflexivity..|].
  destruct (X6_created_note_gets_the_link
              (without_note_no_file (js "Graph view")) ∅ ∅ monthly (js ""))
    as (_ & Hrun); [reflexivity..|].
  split.
  - etrans; [exact Hstore|]. reflexivity.
  - cbn [view_file without_note_no_file] in Hrun. by rewrite Hrun.
Defined.

(** X7: when the resolver returns a note that the vault cannot read, the
    callback never runs: nothing is written, no notification is shown and
    the vault is as the resolver left it.  The calls are the listing, the
    lookup and, with a file in the active leaf, the read. *)
Theorem X7_unreadable_note_is_left_alone H v allNotes f :
  getPlugin_periodic_notes H = true →
  getAllMonthlyNotes H = Returns allNotes →
  getMonthlyNote H (now H) allNotes = Some f →
  v !! path f = None →
  addLinkInMonthlyNote H v
  = MkRun tt v
      ([EGetAllMonthlyNotes; EGetMonthlyNote (now H)]
         ++ if view_file H then [EVaultRead f] else []).
Proof.
  intros Hp E1 E2 Hv. rewrite addLinkInMonthlyNote_run by done. cbv zeta.
  rewrite (getOrCreateMonthlyNote_found H v allNotes f) by done.
  cbn [value store trace]. rewrite Hv. by destruct (view_file H).
Qed.

Lemma X7_witness :
  addLinkInMonthlyNote (with_note (js "A")) ∅
  = MkRun tt ∅
      [EGetAllMonthlyNotes; EGetMonthlyNote march; EVaultRead monthly]
  ∧ count_events is_notice
      (trace (addLinkInMonthlyNote (with_note (js "A")) ∅)) = 0.
Proof.
  rewrite (X7_unreadable_note_is_left_alone (with_note (js "A")) ∅
             {[ uid march := monthly ]} monthly);
    [split; reflexivity | reflexivity..].
Defined.

End InvocationProperties.

(** ** Further properties of the computed text *)

Section TextProperties.

Local Arguments js : simpl never.

Implicit Types t h p l : jsstring.

(** X8: on a note without the heading, any number of runs, one at least,
    gives the text of the first run, whatever the heading and the link
    text hold: the new section is appended as written, without
    [replace]. *)
Theorem X8_heading_absent_then_stable n t h p l :
  includes t h = false → 1 ≤ n →
  append_n n h p l t = t ++ nl ++ h ++ nl ++ link_line p l.
Proof.
  intros Hh Hn. destruct n as [|n]; [lia|]. clear Hn.
  induction n as [|n IH].
  - by apply computeAppend_heading_absent.
  - unfold append_n in *. rewrite Nat.iter_succ, IH.
    apply computeAppend_link_present.
    + apply includes_true_iff. exists (t ++ nl), (nl ++ link_line p l).
      by rewrite <- !(assoc_L (++)).
    + apply includes_true_iff. exists (t ++ nl ++ h ++ nl), [].
      by rewrite <- !(assoc_L (++)), (right_id_L [] (++)).
Qed.

Lemma X8_witness :
  includes (js "Some text") (js "## $$") = false
  ∧ append_n 3 (js "## $$") (js "- ") (js "Cash $$") (js "Some text")
    = js "Some text" ++ nl ++ js "## $$" ++ nl ++ js "- [[Cash $$]]".
Proof.
  split; [reflexivity|].
  apply (X8_heading_absent_then_stable 3 (js "Some text") (js "## $$")
           (js "- ") (js "Cash $$")); [reflexivity|lia].
Defined.

(** X9: the computation never alters the text around the first
    occurrence of the heading, whatever [replace] makes of the inserted
    line: with the heading at index [i], the text before [i] and the text
    after the heading stay where they are; without the heading, the
    whole text stays in front. *)
Theorem X9_text_around_the_heading_is_kept t h p l :
  ∃ mid,
    computeAppend t h p l
    = match indexOf t h with
      | Some i => take i t ++ mid ++ drop (i + length h) t
      | None => t ++ mid
      end.
Proof.
  unfold computeAppend. fold (link_line p l). unfold includes at 1, replace.
  destruct (indexOf t h) as [i|] eqn:Hi.
  - destruct (includes t (link_line p l)); cbn [negb].
    + exists h. by apply indexOf_split.
    + by eexists.
  - by eexists.
Qed.

(** X10: with an empty heading, which the stored settings can hold, a
    note never lacks the heading, so no section is appended: a line that
    is not in the note yet (and that [replace] copies) is put at the very
    start of the note, after a newline. *)
Theorem X10_empty_heading_inserts_at_start t p l :
  includes t (link_line p l) = false →
  subst_free (nl ++ link_line p l) = true →
  computeAppend t [] p l = nl ++ link_line p l ++ t.
Proof.
  intros Hl Hfree.
  assert (includes t [] = true) as Hh.
  { unfold includes. by rewrite indexOf_nil. }
  destruct (computeAppend_inserts t [] p l Hh Hl Hfree)
    as (pre & post & Ht & Hi & ->).
  rewrite indexOf_nil in Hi. injection Hi as Hi.
  symmetry in Hi. apply length_zero_iff_nil in Hi as ->.
  simpl in *. by subst.
Qed.

Lemma X10_witness :
  includes (js "Some text") (link_line (js "- ") (js "A")) = false
  ∧ computeAppend (js "Some text") (js "") (js "- ") (js "A")
    = nl ++ js "- [[A]]" ++ js "Some text".
Proof.
  split; [reflexivity|].
  apply (X10_empty_heading_inserts_at_start (js "Some text") (js "- ")
           (js "A")); reflexivity.
Defined.

End TextProperties.

(** ** Further properties of the resolver and of the open action *)

Section ResolverProperties.

Import Scenario.

Local Arguments js : simpl never.

Implicit Types (H : Host) (v : Vault) (f : TFile).

Local Ltac count :=
  cbn [trace value app falsy];
  rewrite ?count_events_app, ?count_events_cons, ?count_events_nil;
  cbn; lia.

(** X11: the resolver notifies the user exactly when one of its calls
    throws (the listing, or the creation), and then once.  It returns no
    note exactly when one of them throws or creation resolves to
    undefined; in the latter case it returns without a notification of
    its own.  It never reads, writes or opens a file, calls creation at
    most once, and leaves the vault as it was unless it called
    creation. *)
Theorem X11_resolver_notifies_exactly_when_a_call_throws H v :
  count_events is_notice (trace (getOrCreateMonthlyNote H v))
  = (if resolver_call_throws H then 1 else 0)
  ∧ falsy (value (getOrCreateMonthlyNote H v))
    = resolver_call_throws H || creation_resolves_undefined H
  ∧ count_events is_read_or_write (trace (getOrCreateMonthlyNote H v)) = 0
  ∧ count_events is_open (trace (getOrCreateMonthlyNote H v)) = 0
  ∧ count_events is_create (trace (getOrCreateMonthlyNote H v)) ≤ 1
  ∧ (count_events is_create (trace (getOrCreateMonthlyNote H v)) = 0 →
     store (getOrCreateMonthlyNote H v) = v).
Proof.
  unfold resolver_call_throws, creation_resolves_undefined.
  destruct (getAllMonthlyNotes H) as [allNotes|] eqn:E1.
  - destruct (getMonthlyNote H (now H) allNotes) as [f|] eqn:E2.
    + rewrite (getOrCreateMonthlyNote_found H v allNotes f) by done.
      split_and!; [count..|done].
    + destruct (createMonthlyNote H (now H)) as [[[f content]|]|] eqn:E3.
      * rewrite (getOrCreateMonthlyNote_created H v allNotes f content)
          by done.
        split_and!; [count..|]. intros Hc. exfalso. revert Hc. count.
      * rewrite (getOrCreateMonthlyNote_create_undefined H v allNotes)
          by done.
        split_and!; [count..|done].
      * rewrite (getOrCreateMonthlyNote_create_failed H v allNotes)
          by done.
        split_and!; [count..|done].
  - rewrite (getOrCreateMonthlyNote_unavailable H v) by done.
    split_and!; [count..|done].
Qed.

(** X12: the open action opens the note the resolver returned, once, and
    nothing when the resolver returned none; it never reads or writes a
    file and leaves the vault as the resolver left it. *)
Theorem X12_open_opens_the_resolved_note_only H v :
  count_events is_open (trace (openMonthyNote H v))
  = (if falsy (value (getOrCreateMonthlyNote H v)) then 0 else 1)
  ∧ count_events is_read_or_write (trace (openMonthyNote H v)) = 0
  ∧ store (openMonthyNote H v) = store (getOrCreateMonthlyNote H v)
  ∧ ∀ f, EOpenFile f ∈ trace (openMonthyNote H v) →
         value (getOrCreateMonthlyNote H v) = RNote f.
Proof.
  unfold openMonthyNote, bind.
  destruct (getOrCreateMonthlyNote_cases H v)
    as [Hr|[(f & Hr)|[(f & content & Hr)|[Hr|Hr]]]];
    rewrite Hr; cbn [value store trace emit ret];
    (split_and!; [count|count|done|]); intros f' Hin;
    repeat first
      [ apply elem_of_app in Hin as [Hin|Hin]
      | apply elem_of_cons in Hin as [Hin|Hin]
      | apply elem_of_nil in Hin; destruct Hin
      | by inversion Hin ].
Qed.

End ResolverProperties.

(** ** Properties of the settings and their storage *)

Section SettingsProperties.

Local Arguments js : simpl never.

Implicit Types (st : PluginState) (es : list edit) (s : IReviewSettings).

Lemma apply_edits_snoc es e st :
  apply_edits (es ++ [e]) st = apply_edit (apply_edits es st) e.
Proof. unfold apply_edits. by rewrite foldl_app. Qed.

Lemma apply_edit_heading_not_nil st e :
  reviewSectionHeading (plugin_settings st) ≠ [] →
  reviewSectionHeading (plugin_settings (apply_edit st e)) ≠ [].
Proof.
  intros Hne. destruct e as [value|value]; simpl; [|done].
  by case_decide.
Qed.

(** X13: whatever the user types in the settings tab, a heading that was
    not empty never becomes empty (an emptied field puts [## Review],
    which is not the default [## Links]), and the notes folder setting is
    never changed. *)
Theorem X13_edits_keep_the_heading_not_empty es st :
  reviewSectionHeading (plugin_settings st) ≠ [] →
  reviewSectionHeading (plugin_settings (apply_edits es st)) ≠ []
  ∧ dailyNotesFolder (plugin_settings (apply_edits es st))
    = dailyNotesFolder (plugin_settings st)
  ∧ reviewSectionHeading
      (plugin_settings (apply_edits (es ++ [EditHeading (js "")]) st))
    = js "## Review".
Proof.
  intros Hne. split_and!.
  - induction es as [|e es IH] using rev_ind; [done|].
    rewrite apply_edits_snoc. by apply apply_edit_heading_not_nil.
  - induction es as [|e es IH] using rev_ind; [done|].
    rewrite apply_edits_snoc, <- IH.
    destruct e; simpl; [by case_decide|done].
  - rewrite apply_edits_snoc. cbn [apply_edit].
    unfold onChange_reviewSectionHeading. cbv zeta. by case_decide.
Qed.

Lemma X13_witness :
  reviewSectionHeading (plugin_settings fresh_install) ≠ []
  ∧ reviewSectionHeading
      (plugin_settings
         (apply_edits [EditHeading (js "## Done"); EditPrefix (js "* ");
                       EditHeading (js "")] fresh_install))
    ≠ [].
Proof.
  split; [discriminate|].
  apply (X13_edits_keep_the_heading_not_empty
           [EditHeading (js "## Done"); EditPrefix (js "* ");
            EditHeading (js "")] fresh_install).
  discriminate.
Defined.

(** X14: taking [loadData] to return what [saveData] was last given:
    after any edits in the settings tab, one at least, a restart of the
    plugin installs the settings the user left, since the stored object
    holds all three keys and each overrides its default.  With nothing
    stored the defaults are installed; and for every stored object, each
    setting is the stored value of its key where the key is there and the
    default ([""], [## Links], [- ]) where it is not. *)
Theorem X14_saved_settings_are_restored es st :
  es ≠ [] →
  plugin_settings (reload (apply_edits es st))
  = plugin_settings (apply_edits es st)
  ∧ (∀ s, onload_settings (Some (saveData s)) = s)
  ∧ onload_settings None
    = {| dailyNotesFolder := js "";
         reviewSectionHeading := js "## Links";
         linePrefix := js "- " |}
  ∧ (∀ d,
       onload_settings (Some d)
       = {| dailyNotesFolder :=
              match stored_dailyNotesFolder d with
              | Some folder => folder
              | None => js ""
              end;
            reviewSectionHeading :=
              match stored_reviewSectionHeading d with
              | Some heading => heading
              | None => js "## Links"
              end;
            linePrefix :=
              match stored_linePrefix d with
              | Some prefix => prefix
              | None => js "- "
              end |}).
Proof.
  intros Hne.
  assert (∀ s, onload_settings (Some (saveData s)) = s) as Hround
    by (by intros []).
  split_and!; [|done..].
  destruct es as [|e es _] using rev_ind; [done|].
  rewrite apply_edits_snoc. unfold reload. cbn [plugin_settings].
  destruct e; apply Hround.
Qed.

Lemma X14_witness :
  plugin_settings
    (reload (apply_edits [EditHeading (js "## Done"); EditPrefix (js "* ")]
               fresh_install))
  = {| dailyNotesFolder := js "";
       reviewSectionHeading := js "## Done";
       linePrefix := js "* " |}.
Proof.
  etrans;
    [apply (X14_saved_settings_are_restored
              [EditHeading (js "## Done"); EditPrefix (js "* ")]
              fresh_install); discriminate|].
  reflexivity.
Defined.

End SettingsProperties.

(** ** The command slots *)

Section CommandProperties.

Implicit Types (action : M unit) (v : Vault).

(** X15: a command says it is available exactly when a leaf is active,
    probed or run.  Probing it, or calling it with no active leaf, makes
    no call and leaves the vault as it was; run with an active leaf it
    does what its action does, so a probe before the run changes nothing
    of the run. *)
Theorem X15_probing_a_command_does_nothing action activeLeaf checking v :
  value (checkCallback action activeLeaf checking v) = activeLeaf
  ∧ checkCallback action activeLeaf true v = MkRun activeLeaf v []
  ∧ checkCallback action false checking v = MkRun false v []
  ∧ store (checkCallback action true false v) = store (action v)
  ∧ trace (checkCallback action true false v) = trace (action v)
  ∧ store ((checkCallback action activeLeaf true
              >> checkCallback action activeLeaf false) v)
    = store (checkCallback action activeLeaf false v)
  ∧ trace ((checkCallback action activeLeaf true
              >> checkCallback action activeLeaf false) v)
    = trace (checkCallback action activeLeaf false v).
Proof.
  unfold checkCallback, bind, ret.
  destruct activeLeaf, checking; cbn [negb value store trace];
    rewrite ?(right_id_L [] (++)); done.
Qed.

End CommandProperties.
